(** * Caip10LinkHandler: the commit applier of the CAIP-10 link stream

    Shallow embedding of
    [packages/stream-caip10-link-handler/src/caip10-link-handler.ts].

    The handler folds commits (genesis | signed | anchor) into a
    [StreamState].  The TypeScript code works on mutable JavaScript objects:
    the log array of a state is shared by every state derived from it
    ([{...state}] copies the reference), [state.log.push] mutates that array
    in place, and [_applyAnchor] deletes two properties of the state object it
    was given.  The embedding therefore keeps state objects and log arrays in
    an explicit heap and threads that heap through every operation; a thrown
    exception keeps the heap as it is at the throw. *)

From Stdlib Require Import ZArith Ascii String.
From stdpp Require Import gmap strings list fin_maps.

Local Open Scope string_scope.
Local Open Scope Z_scope.
Local Open Scope list_scope.

(** ** JavaScript strings used by the controller check

    A string stands for the UTF-8 encoding of the JavaScript string: ['@'] is
    one byte there and occurs in the encoding of no other character, so
    [split] and [join2] on ['@'] act as they do on the code units.
    [String.prototype.toLowerCase] is a built-in of the language and follows
    the Unicode case mappings; the handler takes it as a parameter.
    [toLowerCaseASCII] maps 'A'..'Z' to 'a'..'z' and leaves every other byte
    as it is: it is what the built-in does on ASCII strings, and it stands
    for the built-in on the (ASCII) sample data. *)

Definition toLowerCase_char (c : ascii) : ascii :=
  let n := nat_of_ascii c in
  if ((65 <=? n)%nat && (n <=? 90)%nat)%bool then ascii_of_nat (n + 32) else c.

Fixpoint toLowerCaseASCII (s : string) : string :=
  match s with
  | EmptyString => EmptyString
  | String c r => String (toLowerCase_char c) (toLowerCaseASCII r)
  end.

(** Whether a string has ASCII characters only. *)
Fixpoint isASCII (s : string) : bool :=
  match s with
  | EmptyString => true
  | String c r => (nat_of_ascii c <? 128)%nat && isASCII r
  end.

(** [s.split(sep)] for a one-character separator: never returns an empty
    array. *)
Fixpoint split (sep : ascii) (s : string) : list string :=
  match s with
  | EmptyString => [EmptyString]
  | String c r =>
      if Ascii.eqb c sep then EmptyString :: split sep r
      else match split sep r with
           | [] => [String c EmptyString]
           | x :: xs => String c x :: xs
           end
  end.

(** Whether a character occurs in a string. *)
Fixpoint contains (c : ascii) (s : string) : bool :=
  match s with
  | EmptyString => false
  | String c' r => Ascii.eqb c' c || contains c r
  end.

(** The number of occurrences of a character in a string. *)
Fixpoint count_char (c : ascii) (s : string) : nat :=
  match s with
  | EmptyString => 0%nat
  | String c' r => ((if Ascii.eqb c' c then 1 else 0) + count_char c r)%nat
  end.

(** [[a, b].join(sep)]: an [undefined] element is printed as the empty
    string. *)
Definition join2 (sep : string) (a b : option string) : string :=
  default "" a +:+ sep +:+ default "" b.

(** JavaScript truthiness of a value that is [null]/[undefined] or a string:
    the empty string is falsy. *)
Definition truthy_string (v : option string) : bool :=
  match v with
  | Some s => negb (String.eqb s "")
  | None => false
  end.

(** [a || b] on such values. *)
Definition or_string (a b : option string) : option string :=
  if truthy_string a then a else b.

(** [x < y] where [y] may be [undefined]: the comparison with [undefined] is
    [false]. *)
Definition lt_undef (x : Z) (y : option Z) : bool :=
  match y with
  | Some y => x <? y
  | None => false
  end.

(** ** Data model

    The types of [@ceramicnetwork/common] and of the link proof are imported
    by the handler and declared outside this package. *)

Definition CID := string.

(** Modelled from the spec: the enum [CommitType] of [@ceramicnetwork/common],
    the kind of a log entry (genesis, signed or anchor). *)
Module CommitType.
Inductive t := GENESIS | SIGNED | ANCHOR.
#[global] Instance eq_dec : EqDecision t.
Proof. solve_decision. Defined.
End CommitType.
Definition CommitType := CommitType.t.

(** Modelled from the spec: the enum [SignatureStatus] of
    [@ceramicnetwork/common], [signatureStatus: enum {GENESIS, SIGNED}]. *)
Module SignatureStatus.
Inductive t := GENESIS | SIGNED.
#[global] Instance eq_dec : EqDecision t.
Proof. solve_decision. Defined.
End SignatureStatus.
Definition SignatureStatus := SignatureStatus.t.

(** Modelled from the spec: the enum [AnchorStatus] of
    [@ceramicnetwork/common],
    [anchorStatus: enum {NOT_REQUESTED, PENDING, ANCHORED, FAILED}]. *)
Module AnchorStatus.
Inductive t := NOT_REQUESTED | PENDING | ANCHORED | FAILED.
#[global] Instance eq_dec : EqDecision t.
Proof. solve_decision. Defined.
End AnchorStatus.
Definition AnchorStatus := AnchorStatus.t.

(** An entry [{ cid, type }] of the log. *)
Record LogEntry := { entry_cid : CID; entry_type : CommitType }.

(** Modelled from the spec: the interface [StreamMetadata] of
    [@ceramicnetwork/common], [{ controllers, lastUpdate }]; a genesis header
    has the same shape.  [controllers] is optional because the genesis check
    guards against its absence; [others] are the properties the handler
    copies without reading them. *)
Record StreamMetadata := {
  controllers : option (list string);
  lastUpdate : option Z;
  others : list (string * string)
}.

(** Modelled from the spec: the pending update [{ content, metadata }], the
    interface [StreamNext] of [@ceramicnetwork/common]. *)
Record StreamNext := {
  next_content : option string;
  next_metadata : option StreamMetadata
}.

(** Modelled from the spec: the anchor proof [{ blockTimestamp, ... }], the
    interface [AnchorProof] of [@ceramicnetwork/common]; [anchorData] are the
    properties the handler never reads. *)
Record AnchorProof := {
  blockTimestamp : Z;
  anchorData : list (string * string)
}.

Definition loc := positive.

(** Modelled from the spec: the record state, the interface [StreamState] of
    [@ceramicnetwork/common]; [log] is a reference to the (shared, mutable)
    log array, and a content is [null] or a DID string. *)
Record StreamState := {
  type : Z;
  content : option string;
  next : option StreamNext;
  metadata : StreamMetadata;
  signature : SignatureStatus;
  anchorStatus : AnchorStatus;
  anchorScheduledFor : option Z;
  anchorProof : option AnchorProof;
  log : loc
}.

(** Modelled from the spec: the result of the proof verifier,
    [{account|address, chainQualifier, timestamp, did}], which is also the
    payload of a signed commit; the chain qualifier is the part of the account
    after ['@']. *)
Record LinkProof := {
  account : option string;
  address : option string;
  timestamp : Z;
  did : string
}.

(** A commit as the handler inspects it: every property it reads may be
    missing. *)
Record CeramicCommit := {
  header : option StreamMetadata;
  data : option LinkProof;
  proof : option CID
}.

(** ** Exceptions *)

Inductive exn :=
| Error (message : string)   (* throw new Error(message) *)
| TypeError                  (* property access on undefined *)
| Rejection (reason : string) (* rejection raised by an external collaborator *).

Definition GenesisDataError : exn :=
  Error "Caip10Link genesis commit cannot have data".
Definition GenesisControllersError : exn :=
  Error "Exactly one controller must be specified".
Definition ProofValidationError (e : string) : exn :=
  Error ("Error while validating link proof for caip10-link signed commit: " +:+ e).
Definition InvalidProofError : exn :=
  Error "Invalid proof for signed commit".
Definition StaleProofError : exn :=
  Error "Invalid commit, proof timestamp too old".
Definition ControllerMismatchError : exn :=
  Error "Address doesn't match stream controller".

(** The two genesis failures form the kind [InvalidGenesisError]. *)
Definition InvalidGenesisError (e : exn) : Prop :=
  e = GenesisDataError ∨ e = GenesisControllersError.

(** ** The heap and the computation monad *)

Record Heap := {
  states : gmap loc StreamState;
  arrays : gmap loc (list LogEntry)
}.

Definition empty_heap : Heap := {| states := ∅; arrays := ∅ |}.

Inductive completion (A : Type) :=
| Normal (a : A)
| Abrupt (e : exn).
Arguments Normal {A} a.
Arguments Abrupt {A} e.

(** A computation runs on a heap and ends with a completion and the heap it
    leaves; [None] is a read through a reference that is not allocated, which
    no JavaScript execution does. *)
Definition M (A : Type) : Type := Heap → option (completion A * Heap).

#[global] Instance M_ret : MRet M := λ A a h, Some (Normal a, h).

#[global] Instance M_bind : MBind M := λ A B k m h,
  match m h with
  | Some (Normal a, h') => k a h'
  | Some (Abrupt e, h') => Some (Abrupt e, h')
  | None => None
  end.

Definition throw {A} (e : exn) : M A := λ h, Some (Abrupt e, h).

Definition get_state (r : loc) : M StreamState :=
  λ h, match states h !! r with
       | Some st => Some (Normal st, h)
       | None => None
       end.

(** In-place update of the object behind a reference. *)
Definition modify_state (r : loc) (f : StreamState → StreamState) : M unit :=
  λ h, match states h !! r with
       | Some st => Some (Normal tt,
                          {| states := <[r := f st]> (states h); arrays := arrays h |})
       | None => None
       end.

(** A new object: allocated at a location not yet in use. *)
Definition new_state (st : StreamState) : M loc :=
  λ h, let r := fresh (dom (states h)) in
       Some (Normal r, {| states := <[r := st]> (states h); arrays := arrays h |}).

Definition new_array (es : list LogEntry) : M loc :=
  λ h, let l := fresh (dom (arrays h)) in
       Some (Normal l, {| states := states h; arrays := <[l := es]> (arrays h) |}).

(** [array.push(e)] *)
Definition push (l : loc) (e : LogEntry) : M unit :=
  λ h, match arrays h !! l with
       | Some es => Some (Normal tt,
                          {| states := states h; arrays := <[l := es ++ [e]]> (arrays h) |})
       | None => None
       end.

(** Lifting of a pure, possibly throwing, evaluation. *)
Definition lift {A} (r : exn + A) : M A :=
  match r with
  | inl e => throw e
  | inr a => mret a
  end.

(** Short-circuit [&&] and [||] over operands whose evaluation may throw. *)
Definition and_js (a b : exn + bool) : exn + bool :=
  match a with
  | inl e => inl e
  | inr false => inr false
  | inr true => b
  end.

Definition or_js (a b : exn + bool) : exn + bool :=
  match a with
  | inl e => inl e
  | inr true => inr true
  | inr false => b
  end.

(** Sequencing of pure evaluations that may throw. *)
#[global] Instance exn_bind : MBind (sum exn) := λ A B k m,
  match m with
  | inl e => inl e
  | inr a => k a
  end.

(** Property access on a value that may be [undefined]. *)
Definition deref {A} (o : option A) : exn + A :=
  match o with
  | Some a => inr a
  | None => inl TypeError
  end.

(** ** External collaborators *)

(** [validateLink] of [@ceramicnetwork/blockchain-utils-validation]: the
    promise is rejected with an error ([inl], carrying [e.toString()]), or
    resolves to [null] or to a proof. *)
Definition Verifier := option LinkProof → string + option LinkProof.

(** [context.ipfs.dag.get(cid, { timeout })]: rejected with an error or
    resolved with the stored value, which the handler does not inspect: it
    may be an anchor proof or [null]/[undefined] ([None]). *)
Record Context := {
  ipfs_dag_get : option CID → Z → exn + option AnchorProof
}.

(** ** The handler *)

Definition IPFS_GET_TIMEOUT : Z := 60000.

Section Caip10LinkHandler.

(** [Caip10Link.STREAM_TYPE_ID], declared in [@ceramicnetwork/stream-caip10-link]. *)
Variable STREAM_TYPE_ID : Z.
(** [String.prototype.toLowerCase], a built-in of the language. *)
Variable toLowerCase : string → string.
Variable validateLink : Verifier.

(** [state.metadata.controllers && state.metadata.controllers.length === 1] *)
Definition oneController (m : StreamMetadata) : bool :=
  match controllers m with
  | Some cs => bool_decide (length cs = 1%nat)
  | None => false
  end.

(** The state object literal is local until it is returned, so it and its log
    array are allocated at the return. *)
Definition _applyGenesis (commit : CeramicCommit) (cid : CID) : M loc :=
  if bool_decide (is_Some (data commit)) then throw GenesisDataError
  else
    hdr ← lift (deref (header commit));
    if negb (oneController hdr) then throw GenesisControllersError
    else
      l ← new_array [{| entry_cid := cid; entry_type := CommitType.GENESIS |}];
      new_state {| type := STREAM_TYPE_ID;
                   content := None;
                   next := Some {| next_content := None; next_metadata := None |};
                   metadata := hdr;
                   signature := SignatureStatus.GENESIS;
                   anchorStatus := AnchorStatus.NOT_REQUESTED;
                   anchorScheduledFor := None;
                   anchorProof := None;
                   log := l |}.

(** The condition of the timestamp check of [_applySigned]. *)
Definition proofTooOld (state : StreamState) (validProof : LinkProof) : exn + bool :=
  and_js (inr (bool_decide (signature state ≠ SignatureStatus.GENESIS)))
    (or_js
       (and_js (inr (bool_decide (anchorStatus state = AnchorStatus.ANCHORED)))
               (ap ← deref (anchorProof state);
                inr (timestamp validProof <? blockTimestamp ap)))
       (and_js (inr (bool_decide (anchorStatus state ≠ AnchorStatus.ANCHORED)))
               (n ← deref (next state);
                m ← deref (next_metadata n);
                inr (lt_undef (timestamp validProof) (lastUpdate m))))).

(** [{ ...metadata, lastUpdate: t }] *)
Definition withLastUpdate (m : StreamMetadata) (t : Z) : StreamMetadata :=
  {| controllers := controllers m;
     lastUpdate := Some t;
     others := others m |}.

(** [account.split('@')] destructured into two and joined again. *)
Definition addressCaip10 (account : string) : string :=
  let parts := split "@" account in
  join2 "@" (parts !! 0%nat) (parts !! 1%nat).

Definition _applySigned (commit : CeramicCommit) (cid : CID) (state : loc) : M loc :=
  validProof ← match validateLink (data commit) with
               | inl e => throw (ProofValidationError e)
               | inr v => mret v
               end;
  match validProof with
  | None => throw InvalidProofError
  | Some validProof =>
      st ← get_state state;
      old ← lift (proofTooOld st validProof);
      if (old : bool) then throw StaleProofError
      else
        acct ← lift (deref (or_string (account validProof) (address validProof)));
        cs ← lift (deref (controllers (metadata st)));
        controller ← lift (deref (cs !! 0%nat));
        if negb (String.eqb (toLowerCase (addressCaip10 acct)) (toLowerCase controller))
        then throw ControllerMismatchError
        else
          push (log st) {| entry_cid := cid; entry_type := CommitType.SIGNED |};;
          st ← get_state state;
          new_state {| type := type st;
                       content := content st;
                       next := Some {| next_content := Some (did validProof);
                                       next_metadata :=
                                         Some (withLastUpdate (metadata st)
                                                 (timestamp validProof)) |};
                       metadata := metadata st;
                       signature := SignatureStatus.SIGNED;
                       anchorStatus := AnchorStatus.NOT_REQUESTED;
                       anchorScheduledFor := anchorScheduledFor st;
                       anchorProof := anchorProof st;
                       log := log st |}
  end.

(** [delete state.next; delete state.anchorScheduledFor] *)
Definition delete_next_and_schedule (st : StreamState) : StreamState :=
  {| type := type st;
     content := content st;
     next := None;
     metadata := metadata st;
     signature := signature st;
     anchorStatus := anchorStatus st;
     anchorScheduledFor := None;
     anchorProof := anchorProof st;
     log := log st |}.

Definition _applyAnchor (context : Context) (commit : CeramicCommit) (cid : CID)
    (state : loc) : M loc :=
  fetched ← lift (ipfs_dag_get context (proof commit) IPFS_GET_TIMEOUT);
  st ← get_state state;
  push (log st) {| entry_cid := cid; entry_type := CommitType.ANCHOR |};;
  let promoted :=
    if truthy_string (n ← next st; next_content n)
    then n ← next st; next_content n
    else content st in
  modify_state state delete_next_and_schedule;;
  st ← get_state state;
  new_state {| type := type st;
               content := promoted;
               next := next st;
               metadata := metadata st;
               signature := signature st;
               anchorStatus := AnchorStatus.ANCHORED;
               anchorScheduledFor := anchorScheduledFor st;
               anchorProof := fetched;
               log := log st |}.

Definition applyCommit (commit : CeramicCommit) (cid : CID) (context : Context)
    (state : option loc) : M loc :=
  match state with
  | None => _applyGenesis commit cid
  | Some state =>
      if bool_decide (is_Some (proof commit))
      then _applyAnchor context commit cid state
      else _applySigned commit cid state
  end.

End Caip10LinkHandler.

(** ** The objects a successful application returns *)

(** The object literal returned by [_applyGenesis] for the header [hdr], with
    its log array at [l]. *)
Definition genesisResult (typeId : Z) (hdr : StreamMetadata) (l : loc) : StreamState :=
  {| type := typeId;
     content := None;
     next := Some {| next_content := None; next_metadata := None |};
     metadata := hdr;
     signature := SignatureStatus.GENESIS;
     anchorStatus := AnchorStatus.NOT_REQUESTED;
     anchorScheduledFor := None;
     anchorProof := None;
     log := l |}.

(** The object literal returned by [_applySigned] for the state [st] and the
    verified proof [p]. *)
Definition signedResult (st : StreamState) (p : LinkProof) : StreamState :=
  {| type := type st;
     content := content st;
     next := Some {| next_content := Some (did p);
                     next_metadata := Some (withLastUpdate (metadata st) (timestamp p)) |};
     metadata := metadata st;
     signature := SignatureStatus.SIGNED;
     anchorStatus := AnchorStatus.NOT_REQUESTED;
     anchorScheduledFor := anchorScheduledFor st;
     anchorProof := anchorProof st;
     log := log st |}.

(** The object literal returned by [_applyAnchor] for the state [st], as it
    was before the deletes, and the fetched proof. *)
Definition anchorResult (st : StreamState) (fetched : option AnchorProof) :
    StreamState :=
  {| type := type st;
     content := if truthy_string (n ← next st; next_content n)
                then n ← next st; next_content n
                else content st;
     next := None;
     metadata := metadata st;
     signature := signature st;
     anchorStatus := AnchorStatus.ANCHORED;
     anchorScheduledFor := None;
     anchorProof := fetched;
     log := log st |}.

(** ** Sequences of applications and reachable states *)

Section Sequences.

Variable STREAM_TYPE_ID : Z.
Variable toLowerCase : string → string.
Variable validateLink : Verifier.

(** Folding a list of commits, each against the state returned for the one
    before it; the first is applied without a prior state. *)
Fixpoint applyAll (context : Context) (commits : list (CeramicCommit * CID))
    (state : option loc) : M (option loc) :=
  match commits with
  | [] => mret state
  | (commit, cid) :: rest =>
      s ← applyCommit STREAM_TYPE_ID toLowerCase validateLink commit cid context state;
      applyAll context rest (Some s)
  end.

(** The kind under which [applyCommit] applies a commit to a prior state. *)
Definition laterKind (commit : CeramicCommit) : CommitType :=
  if bool_decide (is_Some (proof commit)) then CommitType.ANCHOR else CommitType.SIGNED.

Definition laterEntry (c : CeramicCommit * CID) : LogEntry :=
  {| entry_cid := c.2; entry_type := laterKind c.1 |}.

(** The log a successfully applied sequence is expected to leave. *)
Definition expectedLog (commits : list (CeramicCommit * CID)) : list LogEntry :=
  match commits with
  | [] => []
  | (_, cid) :: rest =>
      {| entry_cid := cid; entry_type := CommitType.GENESIS |} :: map laterEntry rest
  end.

(** States produced from a genesis application by successful applications,
    each against the state returned by the previous one. *)
Inductive reachable : Heap → loc → Prop :=
| reachable_genesis commit cid context h h' r :
    applyCommit STREAM_TYPE_ID toLowerCase validateLink commit cid context None h
      = Some (Normal r, h') →
    reachable h' r
| reachable_step commit cid context h r h' r' :
    reachable h r →
    applyCommit STREAM_TYPE_ID toLowerCase validateLink commit cid context (Some r) h
      = Some (Normal r', h') →
    reachable h' r'.

(** The properties read by the timestamp check exist. *)
Definition stalenessFieldsDefined (st : StreamState) : Prop :=
  (signature st ≠ SignatureStatus.GENESIS → anchorStatus st = AnchorStatus.ANCHORED →
     ∃ ap, anchorProof st = Some ap)
  ∧ (signature st ≠ SignatureStatus.GENESIS → anchorStatus st ≠ AnchorStatus.ANCHORED →
     ∃ n m lu, next st = Some n ∧ next_metadata n = Some m ∧ lastUpdate m = Some lu).

(** "In every reachable state the properties read by the timestamp check
    exist." *)
Definition stalenessFieldsAlwaysDefined : Prop :=
  ∀ h r, reachable h r →
    ∃ st, states h !! r = Some st ∧ stalenessFieldsDefined st.

(** A reference to a state object whose log array exists. *)
Definition validRef (h : Heap) (r : loc) : Prop :=
  ∃ st, states h !! r = Some st ∧ is_Some (arrays h !! log st).

(** Commit shapes of the three kinds: a genesis commit is header-only, a
    signed commit carries a payload the verifier accepts, an anchor commit
    carries a proof reference and no payload. *)
Definition genesisShape (c : CeramicCommit) : Prop :=
  is_Some (header c) ∧ data c = None ∧ proof c = None.

Definition signedShape (c : CeramicCommit) : Prop :=
  proof c = None ∧ ∃ p, validateLink (data c) = inr (Some p).

Definition anchorShape (c : CeramicCommit) : Prop :=
  is_Some (proof c) ∧ data c = None.

Definition recognizedShape (c : CeramicCommit) : Prop :=
  genesisShape c ∨ signedShape c ∨ anchorShape c.

(** "Every commit of an unrecognized shape is rejected with an error." *)
Definition rejectsUnrecognizedShapes : Prop :=
  ∀ context commit cid state h,
    (∀ r, state = Some r → validRef h r) →
    ¬ recognizedShape commit →
    ∃ e h', applyCommit STREAM_TYPE_ID toLowerCase validateLink commit cid context state h
            = Some (Abrupt e, h').

(** "An anchor application commits the pending content whenever that content
    is present, and keeps the committed content otherwise." *)
Definition anchorPromotesPresentContent : Prop :=
  ∀ context commit cid state h st fetched r' h' st',
    states h !! state = Some st →
    ipfs_dag_get context (proof commit) IPFS_GET_TIMEOUT = inr fetched →
    _applyAnchor context commit cid state h = Some (Normal r', h') →
    states h' !! r' = Some st' →
    content st' = match n ← next st; next_content n with
                  | Some x => Some x
                  | None => content st
                  end.

End Sequences.

(** ** Sample data *)

Module Samples.

Definition hdr : StreamMetadata :=
  {| controllers := Some ["0xabc@eip155:1"]; lastUpdate := None;
     others := [("family", "links")] |}.

Definition genesisCommit : CeramicCommit :=
  {| header := Some hdr; data := None; proof := None |}.

Definition linkProof (a : string) (ts : Z) (d : string) : LinkProof :=
  {| account := Some a; address := None; timestamp := ts; did := d |}.

Definition signedCommit (a : string) (ts : Z) (d : string) : CeramicCommit :=
  {| header := None; data := Some (linkProof a ts d); proof := None |}.

(** A signed commit whose proof names its account in the legacy [address]
    property only. *)
Definition legacyProof (a : string) (ts : Z) (d : string) : LinkProof :=
  {| account := None; address := Some a; timestamp := ts; did := d |}.

Definition legacyCommit (a : string) (ts : Z) (d : string) : CeramicCommit :=
  {| header := None; data := Some (legacyProof a ts d); proof := None |}.

Definition anchorCommit : CeramicCommit :=
  {| header := None; data := None; proof := Some "bafyanchorproof" |}.

(** A verifier that accepts every payload it is given and fails without
    one. *)
Definition verifier : Verifier :=
  λ payload, match payload with
             | Some p => inr (Some p)
             | None => inl "TypeError: Cannot read property 'version' of undefined"
             end.

Definition proofAt (t : Z) : AnchorProof :=
  {| blockTimestamp := t;
     anchorData := [("chainId", "eip155:1"); ("root", "bafyroot")] |}.

(** A store that holds one anchor proof for every reference. *)
Definition contextWith (t : Z) : Context :=
  {| ipfs_dag_get := λ ref _, match ref with
                              | Some _ => inr (Some (proofAt t))
                              | None => inl (Rejection "invalid cid")
                              end |}.

(** A store that holds [null] for every reference. *)
Definition contextNull : Context :=
  {| ipfs_dag_get := λ _ _, inr None |}.

(** A store whose lookups time out. *)
Definition contextDown : Context :=
  {| ipfs_dag_get := λ _ _, inl (Rejection "request timed out") |}.

Definition typeId : Z := 1.

(** The heap after a genesis commit: state 1 with log array 1. *)
Definition heapGenesis : Heap :=
  match applyCommit typeId toLowerCaseASCII verifier genesisCommit "c0" contextDown None empty_heap with
  | Some (_, h) => h
  | None => empty_heap
  end.

(** After genesis and a signed commit at time 100: state 2. *)
Definition heapSigned : Heap :=
  match applyCommit typeId toLowerCaseASCII verifier (signedCommit "0xabc@eip155:1" 100 "did:example:1")
          "c1" contextDown (Some 1%positive) heapGenesis with
  | Some (_, h) => h
  | None => empty_heap
  end.

(** After genesis, the signed commit and an anchor at block time 150:
    state 3. *)
Definition heapAnchored : Heap :=
  match applyCommit typeId toLowerCaseASCII verifier anchorCommit "c2" (contextWith 150)
          (Some 2%positive) heapSigned with
  | Some (_, h) => h
  | None => empty_heap
  end.

(** After genesis, the signed commit, the anchor and a signed commit at time
    160 whose proof carries the empty DID: state 4. *)
Definition heapCleared : Heap :=
  match applyCommit typeId toLowerCaseASCII verifier (signedCommit "0xabc@eip155:1" 160 "")
          "c3" contextDown (Some 3%positive) heapAnchored with
  | Some (_, h) => h
  | None => empty_heap
  end.

(** ... and a second anchor at block time 170: state 5. *)
Definition heapClearedAnchored : Heap :=
  match applyCommit typeId toLowerCaseASCII verifier anchorCommit "c4" (contextWith 170)
          (Some 4%positive) heapCleared with
  | Some (_, h) => h
  | None => empty_heap
  end.

Definition stateGenesis : StreamState :=
  {| type := typeId; content := None;
     next := Some {| next_content := None; next_metadata := None |};
     metadata := hdr; signature := SignatureStatus.GENESIS;
     anchorStatus := AnchorStatus.NOT_REQUESTED;
     anchorScheduledFor := None; anchorProof := None; log := 1%positive |}.

Definition stateSigned : StreamState :=
  {| type := typeId; content := None;
     next := Some {| next_content := Some "did:example:1";
                     next_metadata := Some (withLastUpdate hdr 100) |};
     metadata := hdr; signature := SignatureStatus.SIGNED;
     anchorStatus := AnchorStatus.NOT_REQUESTED;
     anchorScheduledFor := None; anchorProof := None; log := 1%positive |}.

Definition stateAnchored : StreamState :=
  {| type := typeId; content := Some "did:example:1"; next := None;
     metadata := hdr; signature := SignatureStatus.SIGNED;
     anchorStatus := AnchorStatus.ANCHORED;
     anchorScheduledFor := None; anchorProof := Some (proofAt 150);
     log := 1%positive |}.

Definition stateCleared : StreamState :=
  {| type := typeId; content := Some "did:example:1";
     next := Some {| next_content := Some "";
                     next_metadata := Some (withLastUpdate hdr 160) |};
     metadata := hdr; signature := SignatureStatus.SIGNED;
     anchorStatus := AnchorStatus.NOT_REQUESTED;
     anchorScheduledFor := None; anchorProof := Some (proofAt 150);
     log := 1%positive |}.

Definition stateClearedAnchored : StreamState :=
  {| type := typeId; content := Some "did:example:1"; next := None;
     metadata := hdr; signature := SignatureStatus.SIGNED;
     anchorStatus := AnchorStatus.ANCHORED;
     anchorScheduledFor := None; anchorProof := Some (proofAt 170);
     log := 1%positive |}.

Definition logGenesis : list LogEntry :=
  [{| entry_cid := "c0"; entry_type := CommitType.GENESIS |}].

Definition logSigned : list LogEntry :=
  logGenesis ++ [{| entry_cid := "c1"; entry_type := CommitType.SIGNED |}].

(** A commit that carries both a payload and an anchor-proof reference. *)
Definition hybridCommit : CeramicCommit :=
  {| header := None;
     data := Some (linkProof "0xabc@eip155:1" 100 "did:example:1");
     proof := Some "bafyanchorproof" |}.

(** A commit with nothing in it. *)
Definition emptyCommit : CeramicCommit :=
  {| header := None; data := None; proof := None |}.

Definition twoControllers : StreamMetadata :=
  {| controllers := Some ["0xabc@eip155:1"; "0xdef@eip155:1"]; lastUpdate := None;
     others := [] |}.

(** After genesis, the signed commit and an anchor commit whose proof
    reference resolves to [null]: state 3. *)
Definition heapNullAnchored : Heap :=
  match applyCommit typeId toLowerCaseASCII verifier anchorCommit "c2" contextNull
          (Some 2%positive) heapSigned with
  | Some (_, h) => h
  | None => empty_heap
  end.

Definition stateNullAnchored : StreamState :=
  {| type := typeId; content := Some "did:example:1"; next := None;
     metadata := hdr; signature := SignatureStatus.SIGNED;
     anchorStatus := AnchorStatus.ANCHORED;
     anchorScheduledFor := None; anchorProof := None;
     log := 1%positive |}.

(** After genesis and an anchor at block time 150, before any signed commit:
    state 2. *)
Definition heapGenesisAnchored : Heap :=
  match applyCommit typeId toLowerCaseASCII verifier anchorCommit "c1" (contextWith 150)
          (Some 1%positive) heapGenesis with
  | Some (_, h) => h
  | None => empty_heap
  end.

Definition stateGenesisAnchored : StreamState :=
  {| type := typeId; content := None; next := None;
     metadata := hdr; signature := SignatureStatus.GENESIS;
     anchorStatus := AnchorStatus.ANCHORED;
     anchorScheduledFor := None; anchorProof := Some (proofAt 150);
     log := 1%positive |}.

Definition logGenesisAnchored : list LogEntry :=
  logGenesis ++ [{| entry_cid := "c1"; entry_type := CommitType.ANCHOR |}].

(** A genesis header whose controller has no chain qualifier, and the heap
    after its genesis commit. *)
Definition bareHdr : StreamMetadata :=
  {| controllers := Some ["0xabc"]; lastUpdate := None; others := [] |}.

Definition heapBare : Heap :=
  match applyCommit typeId toLowerCaseASCII verifier
          {| header := Some bareHdr; data := None; proof := None |}
          "c0" contextDown None empty_heap with
  | Some (_, h) => h
  | None => empty_heap
  end.

Definition stateBare : StreamState := genesisResult typeId bareHdr 1%positive.

(** A genesis header whose controller has an empty chain qualifier, and the
    heap after its genesis commit. *)
Definition emptyChainHdr : StreamMetadata :=
  {| controllers := Some ["0xabc@"]; lastUpdate := None; others := [] |}.

Definition heapEmptyChain : Heap :=
  match applyCommit typeId toLowerCaseASCII verifier
          {| header := Some emptyChainHdr; data := None; proof := None |}
          "c0" contextDown None empty_heap with
  | Some (_, h) => h
  | None => empty_heap
  end.

Definition stateEmptyChain : StreamState := genesisResult typeId emptyChainHdr 1%positive.

(** A signed commit whose proof names no account. *)
Definition anonymousCommit : CeramicCommit :=
  {| header := None;
     data := Some {| account := None; address := None; timestamp := 100;
                     did := "did:example:1" |};
     proof := None |}.

(** Two state objects that no application returns: an ANCHORED state without
    anchor proof, and a state without controllers. *)
Definition stateNoProof : StreamState :=
  {| type := typeId; content := None; next := None;
     metadata := hdr; signature := SignatureStatus.SIGNED;
     anchorStatus := AnchorStatus.ANCHORED;
     anchorScheduledFor := None; anchorProof := None; log := 1%positive |}.

Definition stateNoControllers : StreamState :=
  {| type := typeId; content := None; next := None;
     metadata := {| controllers := Some []; lastUpdate := None; others := [] |};
     signature := SignatureStatus.GENESIS;
     anchorStatus := AnchorStatus.NOT_REQUESTED;
     anchorScheduledFor := None; anchorProof := None; log := 1%positive |}.

Definition heapOdd : Heap :=
  {| states := <[2%positive := stateNoControllers]> (<[1%positive := stateNoProof]> ∅);
     arrays := <[1%positive := []]> ∅ |}.

End Samples.

(** * Properties of the handler *)

Section Properties.

Variable STREAM_TYPE_ID : Z.
Variable toLowerCase : string → string.
Variable validateLink : Verifier.

Ltac unfold_run :=
  unfold applyCommit, _applyGenesis, _applySigned, _applyAnchor, mbind, M_bind,
    mret, M_ret, throw, lift, get_state, push, new_state, new_array,
    modify_state in *.

Ltac run_cases :=
  repeat first [ progress unfold_run | case_match | progress simplify_eq/= ];
  try done.

(** *** Failures leave the heap as it was *)

Lemma applyGenesis_abrupt commit cid h e h' :
  _applyGenesis STREAM_TYPE_ID commit cid h = Some (Abrupt e, h') → h' = h.
Proof. intros H. run_cases. Qed.

Lemma applySigned_abrupt commit cid state h e h' :
  _applySigned toLowerCase validateLink commit cid state h = Some (Abrupt e, h') → h' = h.
Proof.
  intros H.
  unfold _applySigned, mbind, M_bind, mret, M_ret, throw, lift, get_state, push in H.
  destruct (validateLink (data commit)) as [m|[p|]]; simplify_eq/=; try done.
  destruct (states h !! state) as [st|] eqn:Hst; simplify_eq/=.
  destruct (proofTooOld st p) as [e0|[|]]; simplify_eq/=; try done.
  destruct (deref (or_string (account p) (address p))) as [e0|acct]; simplify_eq/=; try done.
  destruct (deref (controllers (metadata st))) as [e0|cs]; simplify_eq/=; try done.
  destruct (deref (cs !! 0%nat)) as [e0|c]; simplify_eq/=; try done.
  destruct (negb _); simplify_eq/=; try done.
  destruct (arrays h !! log st) as [es|]; simplify_eq/=.
  rewrite Hst in H. unfold new_state in H. simplify_eq/=.
Qed.

Lemma applyAnchor_abrupt context commit cid state h e h' :
  _applyAnchor context commit cid state h = Some (Abrupt e, h') → h' = h.
Proof. intros H. run_cases. Qed.

(** *** Successful runs *)

Lemma fresh_state_lookup (m : gmap loc StreamState) : m !! fresh (dom m) = None.
Proof. apply not_elem_of_dom, is_fresh. Qed.

Lemma applySigned_run commit cid state h st es p acct cs c :
  states h !! state = Some st →
  arrays h !! log st = Some es →
  validateLink (data commit) = inr (Some p) →
  proofTooOld st p = inr false →
  or_string (account p) (address p) = Some acct →
  controllers (metadata st) = Some cs →
  cs !! 0%nat = Some c →
  toLowerCase (addressCaip10 acct) = toLowerCase c →
  _applySigned toLowerCase validateLink commit cid state h =
    Some (Normal (fresh (dom (states h))),
          {| states :=
               <[fresh (dom (states h)) :=
                   {| type := type st;
                      content := content st;
                      next := Some {| next_content := Some (did p);
                                      next_metadata :=
                                        Some (withLastUpdate (metadata st) (timestamp p)) |};
                      metadata := metadata st;
                      signature := SignatureStatus.SIGNED;
                      anchorStatus := AnchorStatus.NOT_REQUESTED;
                      anchorScheduledFor := anchorScheduledFor st;
                      anchorProof := anchorProof st;
                      log := log st |}]> (states h);
             arrays :=
               <[log st := es ++ [{| entry_cid := cid; entry_type := CommitType.SIGNED |}]]>
                 (arrays h) |}).
Proof.
  intros Hst Hes Hv Hold Hacct Hcs Hc Heq.
  unfold _applySigned, mbind, M_bind, mret, M_ret, throw, lift, get_state, push, new_state.
  rewrite Hv; simpl. rewrite Hst, Hold; simpl.
  rewrite Hacct; simpl. rewrite Hcs; simpl. rewrite Hc; simpl.
  rewrite Heq, String.eqb_refl; simpl.
  rewrite Hes; simpl. rewrite Hst. reflexivity.
Qed.

Lemma applySigned_normal_inv commit cid state h r' h' :
  _applySigned toLowerCase validateLink commit cid state h = Some (Normal r', h') →
  ∃ st es p acct cs c,
    states h !! state = Some st
    ∧ arrays h !! log st = Some es
    ∧ validateLink (data commit) = inr (Some p)
    ∧ proofTooOld st p = inr false
    ∧ or_string (account p) (address p) = Some acct
    ∧ controllers (metadata st) = Some cs
    ∧ cs !! 0%nat = Some c
    ∧ toLowerCase (addressCaip10 acct) = toLowerCase c.
Proof.
  intros H. unfold _applySigned, mbind, M_bind, mret, M_ret, throw, lift, get_state, push in H.
  destruct (validateLink (data commit)) as [e|[p|]] eqn:Hv; simplify_eq/=.
  destruct (states h !! state) as [st|] eqn:Hst; simplify_eq/=.
  destruct (proofTooOld st p) as [e|[|]] eqn:Hold; simplify_eq/=.
  destruct (or_string (account p) (address p)) as [acct|] eqn:Hacct; simplify_eq/=.
  destruct (controllers (metadata st)) as [cs|] eqn:Hcs; simplify_eq/=.
  destruct (cs !! 0%nat) as [c|] eqn:Hc; simplify_eq/=.
  destruct (String.eqb _ _) eqn:Heq; simplify_eq/=.
  destruct (arrays h !! log st) as [es|] eqn:Hes; simplify_eq/=.
  apply String.eqb_eq in Heq.
  exists st, es, p, acct, cs, c. done.
Qed.

Lemma applyAnchor_run context commit cid state h st es fetched :
  ipfs_dag_get context (proof commit) IPFS_GET_TIMEOUT = inr fetched →
  states h !! state = Some st →
  arrays h !! log st = Some es →
  _applyAnchor context commit cid state h =
    let objs := <[state := delete_next_and_schedule st]> (states h) in
    Some (Normal (fresh (dom objs)),
          {| states :=
               <[fresh (dom objs) :=
                   {| type := type st;
                      content := if truthy_string (n ← next st; next_content n)
                                 then n ← next st; next_content n
                                 else content st;
                      next := None;
                      metadata := metadata st;
                      signature := signature st;
                      anchorStatus := AnchorStatus.ANCHORED;
                      anchorScheduledFor := None;
                      anchorProof := fetched;
                      log := log st |}]> objs;
             arrays :=
               <[log st := es ++ [{| entry_cid := cid; entry_type := CommitType.ANCHOR |}]]>
                 (arrays h) |}).
Proof.
  intros Hf Hst Hes.
  unfold _applyAnchor, mbind, M_bind, mret, M_ret, throw, lift, get_state, push,
    new_state, modify_state.
  rewrite Hf; simpl. rewrite Hst, Hes; simpl. rewrite Hst; simpl.
  rewrite lookup_insert_eq. reflexivity.
Qed.

Lemma applyAnchor_normal_inv context commit cid state h r' h' :
  _applyAnchor context commit cid state h = Some (Normal r', h') →
  ∃ st es fetched,
    ipfs_dag_get context (proof commit) IPFS_GET_TIMEOUT = inr fetched
    ∧ states h !! state = Some st
    ∧ arrays h !! log st = Some es.
Proof.
  intros H. unfold _applyAnchor, mbind, M_bind, mret, M_ret, throw, lift, get_state, push in H.
  destruct (ipfs_dag_get _ _ _) as [e|fetched] eqn:Hf; simplify_eq/=.
  destruct (states h !! state) as [st|] eqn:Hst; simplify_eq/=.
  destruct (arrays h !! log st) as [es|] eqn:Hes; simplify_eq/=.
  exists st, es, fetched. done.
Qed.

Lemma applyGenesis_run commit cid h hdr :
  data commit = None →
  header commit = Some hdr →
  oneController hdr = true →
  _applyGenesis STREAM_TYPE_ID commit cid h =
    Some (Normal (fresh (dom (states h))),
          {| states :=
               <[fresh (dom (states h)) :=
                   {| type := STREAM_TYPE_ID;
                      content := None;
                      next := Some {| next_content := None; next_metadata := None |};
                      metadata := hdr;
                      signature := SignatureStatus.GENESIS;
                      anchorStatus := AnchorStatus.NOT_REQUESTED;
                      anchorScheduledFor := None;
                      anchorProof := None;
                      log := fresh (dom (arrays h)) |}]> (states h);
             arrays :=
               <[fresh (dom (arrays h)) :=
                   [{| entry_cid := cid; entry_type := CommitType.GENESIS |}]]> (arrays h) |}).
Proof.
  intros Hd Hh Hone.
  unfold _applyGenesis, mbind, M_bind, mret, M_ret, throw, lift, new_state, new_array.
  rewrite Hd, Hh; simpl. rewrite Hone; simpl. reflexivity.
Qed.

Lemma applyGenesis_normal_inv commit cid h r' h' :
  _applyGenesis STREAM_TYPE_ID commit cid h = Some (Normal r', h') →
  ∃ hdr, data commit = None ∧ header commit = Some hdr ∧ oneController hdr = true.
Proof.
  intros H. unfold _applyGenesis, mbind, M_bind, mret, M_ret, throw, lift in H.
  destruct (data commit) eqn:Hd; simplify_eq/=.
  destruct (header commit) as [hdr|] eqn:Hh; simplify_eq/=.
  destruct (oneController hdr) eqn:Hone; simplify_eq/=.
  exists hdr. done.
Qed.

(** *** The timestamp check *)

Lemma proofTooOld_true_iff st p :
  proofTooOld st p = inr true ↔
    signature st ≠ SignatureStatus.GENESIS
    ∧ ((anchorStatus st = AnchorStatus.ANCHORED
        ∧ ∃ ap, anchorProof st = Some ap ∧ timestamp p < blockTimestamp ap)
       ∨ (anchorStatus st ≠ AnchorStatus.ANCHORED
          ∧ ∃ n m lu, next st = Some n ∧ next_metadata n = Some m
                      ∧ lastUpdate m = Some lu ∧ timestamp p < lu)).
Proof.
  unfold proofTooOld, and_js, or_js, deref, mbind, exn_bind, lt_undef.
  split.
  - intros H.
    repeat (case_bool_decide || case_match); simplify_eq/=;
      try match goal with H : (_ <? _) = true |- _ => apply Z.ltb_lt in H end;
      (split; [done|]); [left|right]; naive_solver.
  - intros [Hs [[Ha (ap & Hap & Hlt)]|[Ha (n & m & lu & Hn & Hm & Hlu & Hlt)]]].
    + rewrite !bool_decide_eq_true_2 by done. rewrite Hap.
      apply Z.ltb_lt in Hlt. by rewrite Hlt.
    + rewrite (bool_decide_eq_true_2 (signature st ≠ SignatureStatus.GENESIS)) by done.
      rewrite (bool_decide_eq_false_2 (anchorStatus st = AnchorStatus.ANCHORED)) by done.
      rewrite (bool_decide_eq_true_2 (anchorStatus st ≠ AnchorStatus.ANCHORED)) by done.
      rewrite Hn, Hm, Hlu. apply Z.ltb_lt in Hlt. by rewrite Hlt.
Qed.

Lemma applySigned_stale_iff commit cid state h st p :
  states h !! state = Some st →
  validateLink (data commit) = inr (Some p) →
  (∃ h', _applySigned toLowerCase validateLink commit cid state h = Some (Abrupt StaleProofError, h'))
  ↔ proofTooOld st p = inr true.
Proof.
  intros Hst Hv. unfold _applySigned, mbind, M_bind, mret, M_ret, throw, lift, get_state, push.
  rewrite Hv; simpl. rewrite Hst.
  destruct (proofTooOld st p) as [e|[|]] eqn:Hold; simpl.
  - split; [|done]. intros [h' H]. simplify_eq.
    unfold proofTooOld, and_js, or_js, deref, mbind, exn_bind in Hold.
    repeat (case_bool_decide || case_match); simplify_eq/=.
  - split; [done|]. by exists h.
  - split; [|done]. intros [h' H]. exfalso.
    unfold deref, new_state in H.
    repeat (case_match; simplify_eq/=).
Qed.

Lemma proofTooOld_checkpoint_passed st p ap :
  anchorStatus st = AnchorStatus.ANCHORED →
  anchorProof st = Some ap →
  blockTimestamp ap ≤ timestamp p →
  proofTooOld st p = inr false.
Proof.
  intros Ha Hap Hle.
  unfold proofTooOld, and_js, or_js, deref, mbind, exn_bind.
  rewrite Hap, Ha; simpl.
  assert ((timestamp p <? blockTimestamp ap) = false) as -> by by apply Z.ltb_ge.
  by case_bool_decide.
Qed.

(** C1: a signed commit whose proof verifies is rejected with
    [StaleProofError] exactly when the state's signature status is not
    GENESIS and either the state is ANCHORED and the proof's timestamp is
    strictly below the stored anchor proof's block timestamp, or the state is
    not ANCHORED and the timestamp is strictly below the pending update's
    [metadata.lastUpdate].  A timestamp equal to the checkpoint is not
    rejected as stale, and on an ANCHORED state a timestamp at or above the
    block timestamp is applied when the controller matches. *)
Theorem stale_proof_rejected_exactly commit cid state h st p :
  states h !! state = Some st →
  validateLink (data commit) = inr (Some p) →
  ((∃ h', _applySigned toLowerCase validateLink commit cid state h
          = Some (Abrupt StaleProofError, h'))
   ↔ signature st ≠ SignatureStatus.GENESIS
     ∧ ((anchorStatus st = AnchorStatus.ANCHORED
         ∧ ∃ ap, anchorProof st = Some ap ∧ timestamp p < blockTimestamp ap)
        ∨ (anchorStatus st ≠ AnchorStatus.ANCHORED
           ∧ ∃ n m lu, next st = Some n ∧ next_metadata n = Some m
                       ∧ lastUpdate m = Some lu ∧ timestamp p < lu)))
  ∧ (∀ ap, anchorStatus st = AnchorStatus.ANCHORED → anchorProof st = Some ap →
       timestamp p = blockTimestamp ap →
       ¬ ∃ h', _applySigned toLowerCase validateLink commit cid state h
               = Some (Abrupt StaleProofError, h'))
  ∧ (∀ n m, anchorStatus st ≠ AnchorStatus.ANCHORED → next st = Some n →
       next_metadata n = Some m → lastUpdate m = Some (timestamp p) →
       ¬ ∃ h', _applySigned toLowerCase validateLink commit cid state h
               = Some (Abrupt StaleProofError, h'))
  ∧ (∀ ap es acct cs c,
       anchorStatus st = AnchorStatus.ANCHORED → anchorProof st = Some ap →
       blockTimestamp ap ≤ timestamp p →
       arrays h !! log st = Some es →
       or_string (account p) (address p) = Some acct →
       controllers (metadata st) = Some cs → cs !! 0%nat = Some c →
       toLowerCase (addressCaip10 acct) = toLowerCase c →
       ∃ r' h', _applySigned toLowerCase validateLink commit cid state h
                = Some (Normal r', h')).
Proof.
  intros Hst Hv.
  pose proof (applySigned_stale_iff commit cid state h st p Hst Hv) as Hiff.
  pose proof (proofTooOld_true_iff st p) as Hold.
  split; [by rewrite Hiff|].
  split; [|split].
  - intros ap Ha Hap Heq Hstale. apply Hiff, Hold in Hstale.
    destruct Hstale as [_ [[_ (ap' & Hap' & Hlt)]|[Hna _]]]; [|done].
    simplify_eq. lia.
  - intros n m Hna Hn Hm Hlu Hstale. apply Hiff, Hold in Hstale.
    destruct Hstale as [_ [[Ha _]|[_ (n' & m' & lu & Hn' & Hm' & Hlu' & Hlt)]]]; [done|].
    simplify_eq. lia.
  - intros ap es acct cs c Ha Hap Hle Hes Hacct Hcs Hc Heq.
    eexists _, _. eapply applySigned_run; eauto using proofTooOld_checkpoint_passed.
Qed.

(** C2: when [applyCommit] fails, with whatever error, the heap is the one
    it was called on: the prior state object and its log array are
    unmodified. *)
Theorem failure_leaves_state_unmodified commit cid context state h e h' :
  applyCommit STREAM_TYPE_ID toLowerCase validateLink commit cid context state h
    = Some (Abrupt e, h') →
  h' = h
  ∧ ∀ r st, state = Some r → states h !! r = Some st →
      states h' !! r = Some st ∧ arrays h' !! log st = arrays h !! log st.
Proof.
  intros H.
  assert (h' = h) as ->; [|by split].
  unfold applyCommit in H. destruct state as [r|].
  - case_bool_decide.
    + by eapply applyAnchor_abrupt.
    + by eapply applySigned_abrupt.
  - by eapply applyGenesis_abrupt.
Qed.

(** C3: a signed commit that passes proof verification, the timestamp check
    and the controller match returns a state whose log has the entry
    [{cid, SIGNED}] appended, with signature SIGNED, anchor status
    NOT_REQUESTED, [next] holding the proof's DID and the prior metadata with
    [lastUpdate] set to the proof's timestamp, and [content] as before. *)
Theorem signed_commit_result commit cid state h st es p acct cs c :
  states h !! state = Some st →
  arrays h !! log st = Some es →
  validateLink (data commit) = inr (Some p) →
  proofTooOld st p = inr false →
  or_string (account p) (address p) = Some acct →
  controllers (metadata st) = Some cs →
  cs !! 0%nat = Some c →
  toLowerCase (addressCaip10 acct) = toLowerCase c →
  ∃ r' h' st',
    _applySigned toLowerCase validateLink commit cid state h = Some (Normal r', h')
    ∧ states h' !! r' = Some st'
    ∧ arrays h' !! log st'
      = Some (es ++ [{| entry_cid := cid; entry_type := CommitType.SIGNED |}])
    ∧ signature st' = SignatureStatus.SIGNED
    ∧ anchorStatus st' = AnchorStatus.NOT_REQUESTED
    ∧ next st'
      = Some {| next_content := Some (did p);
                next_metadata :=
                  Some {| controllers := controllers (metadata st);
                          lastUpdate := Some (timestamp p);
                          others := others (metadata st) |} |}
    ∧ content st' = content st.
Proof.
  intros Hst Hes Hv Hold Hacct Hcs Hc Heq.
  rewrite (applySigned_run _ cid _ _ _ _ _ _ _ _ Hst Hes Hv Hold Hacct Hcs Hc Heq).
  eexists _, _, _. split; [reflexivity|].
  simpl. split; [apply lookup_insert_eq|].
  simpl. by rewrite lookup_insert_eq.
Qed.

(** *** Anchor commits *)

(** C4 (amended): an anchor commit whose proof fetch returns [fetched]
    returns a state whose log has [{cid, ANCHOR}] appended; [content] is the
    prior [next.content] when that is a non-empty string (the test is on its
    truthiness) and the prior [content] when it is missing or the empty
    string; [next] and [anchorScheduledFor] are absent, the anchor status is
    ANCHORED and [anchorProof] is the fetched proof. *)
Theorem anchor_commit_result context commit cid state h st es fetched :
  states h !! state = Some st →
  arrays h !! log st = Some es →
  ipfs_dag_get context (proof commit) IPFS_GET_TIMEOUT = inr fetched →
  ∃ r' h' st',
    _applyAnchor context commit cid state h = Some (Normal r', h')
    ∧ states h' !! r' = Some st'
    ∧ arrays h' !! log st'
      = Some (es ++ [{| entry_cid := cid; entry_type := CommitType.ANCHOR |}])
    ∧ (∀ x, (n ← next st; next_content n) = Some x → x ≠ "" →
         content st' = Some x)
    ∧ ((n ← next st; next_content n) = None
       ∨ (n ← next st; next_content n) = Some "" →
         content st' = content st)
    ∧ next st' = None
    ∧ anchorScheduledFor st' = None
    ∧ anchorStatus st' = AnchorStatus.ANCHORED
    ∧ anchorProof st' = fetched.
Proof.
  intros Hst Hes Hf.
  rewrite (applyAnchor_run _ _ cid _ _ _ _ _ Hf Hst Hes).
  eexists _, _, _. split; [reflexivity|].
  simpl. split; [apply lookup_insert_eq|].
  simpl. split; [by rewrite lookup_insert_eq|].
  split; [|split; [|done]].
  - intros x Hx Hne. rewrite Hx. simpl.
    destruct (String.eqb_spec x ""); done.
  - intros [Hx|Hx]; by rewrite Hx.
Qed.

(** C7: the anchor proof is fetched by the commit's proof reference with a
    timeout of 60000 ms; the application fails exactly when that fetch fails,
    with the fetch's own error, and once the fetch returns a value the
    application succeeds whatever the fetched proof, the commit and the prior
    state are. *)
Theorem anchor_fails_only_on_fetch context commit cid state h st es :
  states h !! state = Some st →
  arrays h !! log st = Some es →
  IPFS_GET_TIMEOUT = 60 * 1000
  ∧ (∀ e, (∃ h', _applyAnchor context commit cid state h = Some (Abrupt e, h'))
          ↔ ipfs_dag_get context (proof commit) 60000 = inl e)
  ∧ (∀ fetched, ipfs_dag_get context (proof commit) 60000 = inr fetched →
       ∃ r' h', _applyAnchor context commit cid state h = Some (Normal r', h')).
Proof.
  intros Hst Hes. split; [done|]. split.
  - intros e.
    destruct (ipfs_dag_get context (proof commit) 60000) as [e'|fetched] eqn:Hf.
    + unfold _applyAnchor, mbind, M_bind, lift, throw.
      change IPFS_GET_TIMEOUT with 60000. rewrite Hf. split.
      * intros [h' H]. by simplify_eq.
      * intros ?. simplify_eq. by exists h.
    + rewrite (applyAnchor_run _ _ cid _ _ _ _ _ Hf Hst Hes). simpl.
      split; [by intros [h' H]|done].
  - intros fetched Hf.
    rewrite (applyAnchor_run _ _ cid _ _ _ _ _ Hf Hst Hes). by eexists _, _.
Qed.

(** *** Genesis commits *)

Lemma oneController_true hdr :
  oneController hdr = true ↔ ∃ c, controllers hdr = Some [c].
Proof.
  unfold oneController. destruct (controllers hdr) as [[|c [|c' cs]]|]; simpl;
    split; try done; try (by intros [? ?]).
  intros _. by exists c.
Qed.

(** C5: a genesis application fails with an [InvalidGenesisError] when the
    commit carries data or when its header's controller list does not have
    exactly one entry; otherwise it returns a new state with signature
    GENESIS, anchor status NOT_REQUESTED, [content] null, [next] equal to
    [{content: null}], the header as metadata and the one-entry log
    [[{cid, GENESIS}]].  (A commit with neither data nor a header fails as
    well, with the TypeError of reading [controllers] of [undefined].) *)
Theorem genesis_application commit cid h :
  (is_Some (data commit) →
     _applyGenesis STREAM_TYPE_ID commit cid h = Some (Abrupt GenesisDataError, h))
  ∧ (∀ hdr, header commit = Some hdr → (∀ c, controllers hdr ≠ Some [c]) →
       ∃ e, InvalidGenesisError e
            ∧ _applyGenesis STREAM_TYPE_ID commit cid h = Some (Abrupt e, h))
  ∧ (∀ hdr c, data commit = None → header commit = Some hdr →
       controllers hdr = Some [c] →
       ∃ r' l h',
         _applyGenesis STREAM_TYPE_ID commit cid h = Some (Normal r', h')
         ∧ states h !! r' = None
         ∧ arrays h !! l = None
         ∧ states h' !! r'
           = Some {| type := STREAM_TYPE_ID;
                     content := None;
                     next := Some {| next_content := None; next_metadata := None |};
                     metadata := hdr;
                     signature := SignatureStatus.GENESIS;
                     anchorStatus := AnchorStatus.NOT_REQUESTED;
                     anchorScheduledFor := None;
                     anchorProof := None;
                     log := l |}
         ∧ arrays h' !! l = Some [{| entry_cid := cid; entry_type := CommitType.GENESIS |}])
  ∧ (data commit = None → header commit = None →
       _applyGenesis STREAM_TYPE_ID commit cid h = Some (Abrupt TypeError, h)).
Proof.
  split; [|split; [|split]].
  - intros [d Hd]. unfold _applyGenesis, throw. by rewrite Hd.
  - intros hdr Hh Hnone.
    assert (oneController hdr = false) as Hone.
    { destruct (oneController hdr) eqn:E; [|done].
      apply oneController_true in E as [c Hc]. by destruct (Hnone c). }
    unfold _applyGenesis, mbind, M_bind, mret, M_ret, throw, lift.
    destruct (data commit) as [d|]; simpl.
    + exists GenesisDataError. split; [by left|done].
    + rewrite Hh; simpl. rewrite Hone; simpl.
      exists GenesisControllersError. split; [by right|done].
  - intros hdr c Hd Hh Hc.
    assert (oneController hdr = true) as Hone by (apply oneController_true; eauto).
    rewrite (applyGenesis_run _ cid h _ Hd Hh Hone).
    eexists _, _, _. split; [reflexivity|]. simpl.
    split; [apply fresh_state_lookup|].
    split; [apply not_elem_of_dom, is_fresh|].
    split; apply lookup_insert_eq.
  - intros Hd Hh. unfold _applyGenesis, mbind, M_bind, throw, lift.
    by rewrite Hd, Hh.
Qed.

(** *** The controller check *)

Lemma split_without_separator sep s :
  contains sep s = false → split sep s = [s].
Proof.
  induction s as [|c r IH]; simpl; [done|].
  intros [Hc Hr]%orb_false_iff. rewrite Hc, (IH Hr). done.
Qed.

Lemma split_at_first_separator sep a b :
  contains sep a = false →
  split sep (a +:+ String sep b) = a :: split sep b.
Proof.
  induction a as [|c r IH]; simpl.
  - intros _. by rewrite Ascii.eqb_refl.
  - intros [Hc Hr]%orb_false_iff. rewrite Hc, (IH Hr). done.
Qed.

Lemma addressCaip10_qualified a chain :
  contains "@" a = false →
  contains "@" chain = false →
  addressCaip10 (a +:+ "@" +:+ chain) = a +:+ "@" +:+ chain.
Proof.
  intros Ha Hchain. unfold addressCaip10.
  change ("@" +:+ chain) with (String "@" chain).
  rewrite split_at_first_separator by done.
  rewrite split_without_separator by done. done.
Qed.

Lemma or_string_account p a :
  account p = Some a → a ≠ "" → or_string (account p) (address p) = Some a.
Proof.
  intros Ha Hne. unfold or_string, truthy_string. rewrite Ha.
  destruct (String.eqb_spec a ""); done.
Qed.

Lemma or_string_address p :
  account p = None → or_string (account p) (address p) = address p.
Proof. intros Ha. unfold or_string. by rewrite Ha. Qed.

Lemma applySigned_mismatch_iff commit cid state h st p acct cs c :
  states h !! state = Some st →
  validateLink (data commit) = inr (Some p) →
  proofTooOld st p = inr false →
  or_string (account p) (address p) = Some acct →
  controllers (metadata st) = Some cs →
  cs !! 0%nat = Some c →
  _applySigned toLowerCase validateLink commit cid state h = Some (Abrupt ControllerMismatchError, h)
  ↔ toLowerCase (addressCaip10 acct) ≠ toLowerCase c.
Proof.
  intros Hst Hv Hold Hacct Hcs Hc.
  unfold _applySigned, mbind, M_bind, mret, M_ret, throw, lift, get_state, push, new_state.
  rewrite Hv; simpl. rewrite Hst, Hold; simpl.
  rewrite Hacct; simpl. rewrite Hcs; simpl. rewrite Hc; simpl.
  destruct (String.eqb_spec (toLowerCase (addressCaip10 acct)) (toLowerCase c))
    as [Heq|Hne]; simpl; [|done].
  split; [|done]. intros H. repeat (case_match; simplify_eq/=).
Qed.

Lemma or_string_choice p acct :
  (account p = Some acct ∧ acct ≠ "")
  ∨ ((account p = None ∨ account p = Some "") ∧ address p = Some acct) →
  or_string (account p) (address p) = Some acct.
Proof.
  intros [[Ha Hne]|[Ha Hadd]].
  - by apply or_string_account.
  - unfold or_string. rewrite Hadd. by destruct Ha as [->| ->].
Qed.

Lemma append_empty_r s : s +:+ "" = s.
Proof.
  induction s as [|c r IH]; [done|].
  change (String c (r +:+ "") = String c r). by rewrite IH.
Qed.

Lemma addressCaip10_first_two a chain tail :
  contains "@" a = false →
  contains "@" chain = false →
  tail = "" ∨ (∃ rest, tail = "@" +:+ rest) →
  addressCaip10 (a +:+ "@" +:+ chain +:+ tail) = a +:+ "@" +:+ chain.
Proof.
  intros Ha Hchain [->|[rest ->]]; unfold addressCaip10.
  - change ("@" +:+ chain +:+ "") with (String "@" (chain +:+ "")).
    rewrite split_at_first_separator by done.
    rewrite append_empty_r. by rewrite split_without_separator.
  - change ("@" +:+ chain +:+ "@" +:+ rest) with (String "@" (chain +:+ String "@" rest)).
    rewrite split_at_first_separator by done.
    by rewrite split_at_first_separator.
Qed.

Lemma addressCaip10_unqualified acct :
  contains "@" acct = false → addressCaip10 acct = acct +:+ "@".
Proof.
  intros Hacct. unfold addressCaip10. by rewrite split_without_separator.
Qed.

(** C6: a signed commit that reaches the controller check compares the
    proof's account identifier with the first controller, both lower-cased
    by the built-in.  The identifier is the proof's [account] or, when that
    is missing or empty, its [address]; of its ['@']-separated segments the
    first two are joined again as [address@chainId] (an identifier without
    ['@'] gets an empty chain qualifier).  The commit fails with
    [ControllerMismatchError] exactly when the two lower-cased strings
    differ; with a built-in that lower-cases ASCII letters the account
    [0xABC@eip155:1] matches the controller [0xabc@eip155:1]. *)
Theorem controller_mismatch_exactly commit cid state h st p acct cs c :
  states h !! state = Some st →
  validateLink (data commit) = inr (Some p) →
  proofTooOld st p = inr false →
  (account p = Some acct ∧ acct ≠ "")
  ∨ ((account p = None ∨ account p = Some "") ∧ address p = Some acct) →
  controllers (metadata st) = Some cs →
  cs !! 0%nat = Some c →
  ((∃ h', _applySigned toLowerCase validateLink commit cid state h
          = Some (Abrupt ControllerMismatchError, h'))
   ↔ toLowerCase (addressCaip10 acct) ≠ toLowerCase c)
  ∧ (∀ a chain tail,
       acct = a +:+ "@" +:+ chain +:+ tail →
       contains "@" a = false → contains "@" chain = false →
       tail = "" ∨ (∃ rest, tail = "@" +:+ rest) →
       ((∃ h', _applySigned toLowerCase validateLink commit cid state h
               = Some (Abrupt ControllerMismatchError, h'))
        ↔ toLowerCase (a +:+ "@" +:+ chain) ≠ toLowerCase c))
  ∧ (contains "@" acct = false →
       ((∃ h', _applySigned toLowerCase validateLink commit cid state h
               = Some (Abrupt ControllerMismatchError, h'))
        ↔ toLowerCase (acct +:+ "@") ≠ toLowerCase c))
  ∧ ((∀ s, isASCII s = true → toLowerCase s = toLowerCaseASCII s) →
     acct = "0xABC@eip155:1" → c = "0xabc@eip155:1" →
       ¬ ∃ h', _applySigned toLowerCase validateLink commit cid state h
               = Some (Abrupt ControllerMismatchError, h')).
Proof.
  intros Hst Hv Hold Hchoice Hcs Hc.
  pose proof (or_string_choice p acct Hchoice) as Hacct.
  assert ((∃ h', _applySigned toLowerCase validateLink commit cid state h
                 = Some (Abrupt ControllerMismatchError, h'))
          ↔ toLowerCase (addressCaip10 acct) ≠ toLowerCase c) as Hiff.
  { rewrite <- (applySigned_mismatch_iff commit cid state h st p acct cs c
                  Hst Hv Hold Hacct Hcs Hc).
    split; [|by exists h]. intros [h' H].
    by rewrite (applySigned_abrupt _ _ _ _ _ _ H) in H. }
  split; [done|]. split; [|split].
  - intros a chain tail -> Ha Hchain Htail.
    by rewrite Hiff, (addressCaip10_first_two a chain tail Ha Hchain Htail).
  - intros Hnone. by rewrite Hiff, (addressCaip10_unqualified acct Hnone).
  - intros Hascii -> -> Hfail. apply Hiff in Hfail. apply Hfail.
    rewrite !Hascii by reflexivity. reflexivity.
Qed.

(** *** The log *)

Lemma applyCommit_genesis_log commit cid context h r h' :
  applyCommit STREAM_TYPE_ID toLowerCase validateLink commit cid context None h
    = Some (Normal r, h') →
  ∃ st, states h' !! r = Some st
        ∧ signature st = SignatureStatus.GENESIS
        ∧ arrays h' !! log st
          = Some [{| entry_cid := cid; entry_type := CommitType.GENESIS |}].
Proof.
  simpl. intros H.
  destruct (applyGenesis_normal_inv _ _ _ _ _ H) as (hdr & Hd & Hh & Hone).
  rewrite (applyGenesis_run _ cid h _ Hd Hh Hone) in H. simplify_eq.
  eexists. split; [apply lookup_insert_eq|]. simpl.
  split; [done|apply lookup_insert_eq].
Qed.

Lemma applyCommit_later_log commit cid context r h st es r' h' :
  states h !! r = Some st →
  arrays h !! log st = Some es →
  applyCommit STREAM_TYPE_ID toLowerCase validateLink commit cid context (Some r) h
    = Some (Normal r', h') →
  ∃ st', states h' !! r' = Some st'
         ∧ log st' = log st
         ∧ arrays h' !! log st'
           = Some (es ++ [{| entry_cid := cid; entry_type := laterKind commit |}]).
Proof.
  intros Hst Hes H. unfold applyCommit in H. unfold laterKind. case_bool_decide.
  - destruct (applyAnchor_normal_inv _ _ _ _ _ _ _ H) as (st0 & es0 & f & Hf & Hst0 & Hes0).
    simplify_eq.
    rewrite (applyAnchor_run _ _ cid _ _ _ _ _ Hf Hst Hes) in H. simpl in H. simplify_eq.
    eexists. split; [apply lookup_insert_eq|]. simpl.
    split; [done|apply lookup_insert_eq].
  - destruct (applySigned_normal_inv _ _ _ _ _ _ H)
      as (st0 & es0 & p & acct & cs & c & Hst0 & Hes0 & Hv & Hold & Hacct & Hcs & Hc & Heq).
    simplify_eq.
    rewrite (applySigned_run _ cid _ _ _ _ _ _ _ _ Hst Hes Hv Hold Hacct Hcs Hc Heq) in H.
    simplify_eq.
    eexists. split; [apply lookup_insert_eq|]. simpl.
    split; [done|apply lookup_insert_eq].
Qed.

Lemma applyAll_cons context commit cid rest state h :
  applyAll STREAM_TYPE_ID toLowerCase validateLink context ((commit, cid) :: rest) state h =
    match applyCommit STREAM_TYPE_ID toLowerCase validateLink commit cid context state h with
    | Some (Normal s, h1) =>
        applyAll STREAM_TYPE_ID toLowerCase validateLink context rest (Some s) h1
    | Some (Abrupt e, h1) => Some (Abrupt e, h1)
    | None => None
    end.
Proof. reflexivity. Qed.

Lemma applyAll_from context commits : ∀ r h st es r' h',
  states h !! r = Some st →
  arrays h !! log st = Some es →
  applyAll STREAM_TYPE_ID toLowerCase validateLink context commits (Some r) h
    = Some (Normal (Some r'), h') →
  ∃ st', states h' !! r' = Some st'
         ∧ arrays h' !! log st' = Some (es ++ map laterEntry commits).
Proof.
  induction commits as [|[commit cid] rest IH]; intros r h st es r' h' Hst Hes H.
  - unfold applyAll, mret, M_ret in H. simplify_eq.
    exists st. by rewrite app_nil_r.
  - rewrite applyAll_cons in H.
    destruct (applyCommit _ _ _ commit cid context (Some r) h)
      as [[[r1|e] h1]|] eqn:Hstep; simplify_eq.
    destruct (applyCommit_later_log _ _ _ _ _ _ _ _ _ Hst Hes Hstep)
      as (st1 & Hst1 & Hlog & Hes1).
    destruct (IH _ _ _ _ _ _ Hst1 Hes1 H) as (st' & Hst' & Hes').
    exists st'. split; [done|].
    rewrite Hes'. simpl. by rewrite <- app_assoc.
Qed.

Lemma applyCommit_keeps_entries commit cid context state h c h' l es :
  (∀ r, state = Some r → ∃ st, states h !! r = Some st) →
  applyCommit STREAM_TYPE_ID toLowerCase validateLink commit cid context state h = Some (c, h') →
  arrays h !! l = Some es →
  ∃ more, arrays h' !! l = Some (es ++ more) ∧ (length more ≤ 1)%nat.
Proof.
  intros Hvalid H Hl. destruct c as [r'|e].
  - destruct state as [r|].
    + destruct (Hvalid r eq_refl) as [st Hst].
      assert (∃ es0, arrays h !! log st = Some es0) as [es0 Hes0].
      { unfold applyCommit in H. case_bool_decide.
        - destruct (applyAnchor_normal_inv _ _ _ _ _ _ _ H) as (? & ? & ? & ? & ? & ?).
          simplify_eq. eauto.
        - destruct (applySigned_normal_inv _ _ _ _ _ _ H)
            as (? & ? & ? & ? & ? & ? & ? & ? & ?). simplify_eq. eauto. }
      destruct (applyCommit_later_log _ _ _ _ _ _ _ _ _ Hst Hes0 H)
        as (st' & _ & Hlog & Hes').
      rewrite Hlog in Hes'.
      destruct (decide (l = log st)) as [->|Hne].
      * simplify_eq. eexists. split; [done|]. simpl; lia.
      * exists []. rewrite app_nil_r. split; [|simpl; lia].
        unfold applyCommit in H. case_bool_decide.
        -- destruct (applyAnchor_normal_inv _ _ _ _ _ _ _ H) as (? & ? & f & Hf & ? & ?).
           simplify_eq.
           rewrite (applyAnchor_run _ _ cid _ _ _ _ _ Hf Hst Hes0) in H. simpl in H.
           simplify_eq. simpl. by rewrite lookup_insert_ne.
        -- destruct (applySigned_normal_inv _ _ _ _ _ _ H)
             as (? & ? & p & acct & cs & c & ? & ? & Hv & Hold & Hacct & Hcs & Hc & Heq).
           simplify_eq.
           rewrite (applySigned_run _ cid _ _ _ _ _ _ _ _ Hst Hes0 Hv Hold Hacct Hcs Hc Heq)
             in H.
           simplify_eq. simpl. by rewrite lookup_insert_ne.
    + simpl in H.
      destruct (applyGenesis_normal_inv _ _ _ _ _ H) as (hdr & Hd & Hh & Hone).
      rewrite (applyGenesis_run _ cid h _ Hd Hh Hone) in H. simplify_eq. simpl.
      exists []. rewrite app_nil_r. split; [|simpl; lia].
      rewrite lookup_insert_ne; [done|].
      intros E. pose proof (is_fresh (dom (arrays h))) as Hfresh.
      rewrite E in Hfresh. apply Hfresh, elem_of_dom. eauto.
  - assert (h' = h) as ->; [|exists []; rewrite app_nil_r; split; [done|simpl; lia]].
    unfold applyCommit in H. destruct state as [r|].
    + case_bool_decide; [by eapply applyAnchor_abrupt|by eapply applySigned_abrupt].
    + by eapply applyGenesis_abrupt.
Qed.

(** C8: after a sequence of commits applied successfully from a genesis
    commit, the log of the resulting state has one entry per commit, in
    application order, each carrying the commit's CID and kind; a successful
    application to a prior state appends exactly one entry at the end of that
    state's log, and no application removes or reorders entries of any log. *)
Theorem log_is_append_only context :
  (∀ commits h r h',
     applyAll STREAM_TYPE_ID toLowerCase validateLink context commits None h
       = Some (Normal (Some r), h') →
     ∃ st entries,
       states h' !! r = Some st
       ∧ arrays h' !! log st = Some entries
       ∧ entries = expectedLog commits
       ∧ length entries = length commits)
  ∧ (∀ commit cid r h st es r' h',
       states h !! r = Some st →
       arrays h !! log st = Some es →
       applyCommit STREAM_TYPE_ID toLowerCase validateLink commit cid context (Some r) h
         = Some (Normal r', h') →
       ∃ st', states h' !! r' = Some st'
              ∧ arrays h' !! log st'
                = Some (es ++ [{| entry_cid := cid; entry_type := laterKind commit |}]))
  ∧ (∀ commit cid state h c h' l es,
       (∀ r, state = Some r → ∃ st, states h !! r = Some st) →
       applyCommit STREAM_TYPE_ID toLowerCase validateLink commit cid context state h
         = Some (c, h') →
       arrays h !! l = Some es →
       ∃ more, arrays h' !! l = Some (es ++ more)).
Proof.
  split; [|split].
  - intros [|[commit cid] rest] h r h' H.
    + unfold applyAll, mret, M_ret in H. simplify_eq.
    + rewrite applyAll_cons in H.
      destruct (applyCommit _ _ _ commit cid context None h)
        as [[[r0|e] h0]|] eqn:Hgen; simplify_eq.
      destruct (applyCommit_genesis_log _ _ _ _ _ _ Hgen) as (st0 & Hst0 & _ & Hes0).
      destruct (applyAll_from _ _ _ _ _ _ _ _ Hst0 Hes0 H) as (st' & Hst' & Hes').
      exists st', (expectedLog ((commit, cid) :: rest)).
      split; [done|]. split; [done|]. split; [done|].
      simpl. by rewrite length_map.
  - intros commit cid r h st es r' h' Hst Hes H.
    destruct (applyCommit_later_log _ _ _ _ _ _ _ _ _ Hst Hes H)
      as (st' & Hst' & _ & Hes').
    eauto.
  - intros commit cid state h c h' l es Hvalid H Hl.
    destruct (applyCommit_keeps_entries _ _ _ _ _ _ _ _ _ Hvalid H Hl) as (more & Hm & _).
    eauto.
Qed.

(** *** Commit shapes *)

(** C9 (amended): a commit that has none of the three recognized shapes is
    rejected with an error whenever it is applied without a prior state or
    carries no anchor-proof reference; in particular a commit without such a
    reference that is applied to a prior state and whose payload the
    verifier does not accept is rejected, with the invalid-proof or the
    proof-validation error.  The exception is a commit that carries an
    anchor-proof reference and is applied to a prior state: whatever else it
    carries it is taken for an anchor commit, rejected with the error of
    the proof fetch when that fails and applied when it succeeds. *)
Theorem unrecognized_commit_rejected_unless_anchor_dispatch context commit cid state h :
  (¬ recognizedShape validateLink commit →
   state = None ∨ proof commit = None →
     ∃ e, applyCommit STREAM_TYPE_ID toLowerCase validateLink commit cid context state h
          = Some (Abrupt e, h))
  ∧ (is_Some state → proof commit = None →
     (¬ ∃ p, validateLink (data commit) = inr (Some p)) →
     ∃ e, (e = InvalidProofError ∨ ∃ m, e = ProofValidationError m)
          ∧ applyCommit STREAM_TYPE_ID toLowerCase validateLink commit cid context state h
            = Some (Abrupt e, h))
  ∧ (∀ r st es, state = Some r → is_Some (proof commit) →
       states h !! r = Some st → arrays h !! log st = Some es →
       (∀ e, ipfs_dag_get context (proof commit) IPFS_GET_TIMEOUT = inl e →
          applyCommit STREAM_TYPE_ID toLowerCase validateLink commit cid context state h
          = Some (Abrupt e, h))
       ∧ (∀ v, ipfs_dag_get context (proof commit) IPFS_GET_TIMEOUT = inr v →
          ∃ r' h' st',
            applyCommit STREAM_TYPE_ID toLowerCase validateLink commit cid context state h
            = Some (Normal r', h')
            ∧ states h' !! r' = Some st'
            ∧ anchorStatus st' = AnchorStatus.ANCHORED
            ∧ arrays h' !! log st'
              = Some (es ++ [{| entry_cid := cid; entry_type := CommitType.ANCHOR |}]))).
Proof.
  assert (is_Some state → proof commit = None →
          (¬ ∃ p, validateLink (data commit) = inr (Some p)) →
          ∃ e, (e = InvalidProofError ∨ ∃ m, e = ProofValidationError m)
               ∧ applyCommit STREAM_TYPE_ID toLowerCase validateLink commit cid context state h
                 = Some (Abrupt e, h)) as Hsigned.
  { intros [r ->] Hp Hno. unfold applyCommit. rewrite Hp.
    rewrite bool_decide_eq_false_2 by (by intros [? ?]).
    unfold _applySigned, mbind, M_bind, mret, M_ret, throw.
    destruct (validateLink (data commit)) as [m|[p|]] eqn:Hv.
    - exists (ProofValidationError m). split; [right; by exists m|done].
    - destruct Hno. by exists p.
    - exists InvalidProofError. split; [by left|done]. }
  split; [|split; [done|]].
  - intros Hshape Hcase. destruct state as [r|].
    + destruct Hcase as [?|Hp]; [done|].
      destruct Hsigned as (e & _ & He); [done|done| |by exists e].
      intros Hok. apply Hshape. right; left. by split.
    + unfold applyCommit, _applyGenesis, mbind, M_bind, mret, M_ret, throw, lift.
      destruct (data commit) as [d|] eqn:Hd; simpl; [by eexists|].
      destruct (header commit) as [hdr|] eqn:Hh; simpl; [|by eexists].
      destruct (proof commit) as [ref|] eqn:Hp.
      * destruct Hshape. right; right. split; [by rewrite Hp|done].
      * destruct Hshape. left. by split; [eexists|].
  - intros r st es -> Hp Hst Hes. unfold applyCommit.
    rewrite bool_decide_eq_true_2 by done. split.
    + intros e Hf. unfold _applyAnchor, mbind, M_bind, lift, throw. by rewrite Hf.
    + intros v Hf. rewrite (applyAnchor_run _ _ cid _ _ _ _ _ Hf Hst Hes). simpl.
      eexists _, _, _. split; [done|]. split; [apply lookup_insert_eq|].
      simpl. split; [done|apply lookup_insert_eq].
Qed.

(** *** Reachable states *)

Lemma applyCommit_genesis_result commit cid context h r' h' :
  applyCommit STREAM_TYPE_ID toLowerCase validateLink commit cid context None h
    = Some (Normal r', h') →
  ∃ st', states h' !! r' = Some st'
         ∧ signature st' = SignatureStatus.GENESIS
         ∧ anchorStatus st' = AnchorStatus.NOT_REQUESTED.
Proof.
  simpl. intros H.
  destruct (applyGenesis_normal_inv _ _ _ _ _ H) as (hdr & Hd & Hh & Hone).
  rewrite (applyGenesis_run _ cid h _ Hd Hh Hone) in H. simplify_eq.
  eexists. split; [apply lookup_insert_eq|]. done.
Qed.

Lemma applyCommit_later_result commit cid context r h r' h' :
  applyCommit STREAM_TYPE_ID toLowerCase validateLink commit cid context (Some r) h
    = Some (Normal r', h') →
  ∃ st', states h' !! r' = Some st'
    ∧ ((anchorStatus st' = AnchorStatus.ANCHORED
        ∧ ipfs_dag_get context (proof commit) IPFS_GET_TIMEOUT
          = inr (anchorProof st'))
       ∨ (anchorStatus st' = AnchorStatus.NOT_REQUESTED
          ∧ ∃ p n m, validateLink (data commit) = inr (Some p)
                     ∧ next st' = Some n ∧ next_metadata n = Some m
                     ∧ lastUpdate m = Some (timestamp p))).
Proof.
  intros H. simpl in H. case_bool_decide.
  - destruct (applyAnchor_normal_inv _ _ _ _ _ _ _ H) as (st & es & f & Hf & Hst & Hes).
    rewrite (applyAnchor_run _ _ cid _ _ _ _ _ Hf Hst Hes) in H. simpl in H.
    simplify_eq. eexists. split; [apply lookup_insert_eq|].
    left. by split.
  - destruct (applySigned_normal_inv _ _ _ _ _ _ H)
      as (st & es & p & acct & cs & c & Hst & Hes & Hv & Hold & Hacct & Hcs & Hc & Heq).
    rewrite (applySigned_run _ cid _ _ _ _ _ _ _ _ Hst Hes Hv Hold Hacct Hcs Hc Heq) in H.
    simplify_eq. eexists. split; [apply lookup_insert_eq|].
    right. split; [done|]. by eexists p, _, _.
Qed.

(** C10 (amended): in every state reachable from a genesis application by
    successful applications: when the signature status is not GENESIS and
    the state is not ANCHORED, the state was returned for a signed commit
    and [next] exists with its metadata, whose [lastUpdate] is the timestamp
    of the proof the verifier returned for that commit; when the state is
    ANCHORED, it was returned for an anchor commit and [anchorProof] is the
    value the proof fetch of that commit returned, stored as it came, so it
    is missing exactly when the fetch resolved to null.  The timestamp check
    ends in a TypeError on a reachable state in that case only (signature
    status not GENESIS, ANCHORED, no anchor proof) and evaluates to a boolean
    otherwise. *)
Theorem reachable_staleness_fields_defined h r :
  reachable STREAM_TYPE_ID toLowerCase validateLink h r →
  ∃ st, states h !! r = Some st
        ∧ (signature st ≠ SignatureStatus.GENESIS →
           anchorStatus st ≠ AnchorStatus.ANCHORED →
             ∃ commit cid context h0 r0 p n m,
               reachable STREAM_TYPE_ID toLowerCase validateLink h0 r0
               ∧ applyCommit STREAM_TYPE_ID toLowerCase validateLink commit cid context
                   (Some r0) h0 = Some (Normal r, h)
               ∧ validateLink (data commit) = inr (Some p)
               ∧ next st = Some n ∧ next_metadata n = Some m
               ∧ lastUpdate m = Some (timestamp p))
        ∧ (anchorStatus st = AnchorStatus.ANCHORED →
             ∃ commit cid context h0 r0,
               reachable STREAM_TYPE_ID toLowerCase validateLink h0 r0
               ∧ applyCommit STREAM_TYPE_ID toLowerCase validateLink commit cid context
                   (Some r0) h0 = Some (Normal r, h)
               ∧ ipfs_dag_get context (proof commit) IPFS_GET_TIMEOUT
                 = inr (anchorProof st))
        ∧ (∀ p, proofTooOld st p = inl TypeError
                ↔ signature st ≠ SignatureStatus.GENESIS
                  ∧ anchorStatus st = AnchorStatus.ANCHORED
                  ∧ anchorProof st = None)
        ∧ (∀ p, signature st = SignatureStatus.GENESIS
                ∨ anchorStatus st ≠ AnchorStatus.ANCHORED
                ∨ is_Some (anchorProof st) →
                ∃ b, proofTooOld st p = inr b).
Proof.
  intros Hreach.
  assert (∃ st,
            states h !! r = Some st
            ∧ ((signature st = SignatureStatus.GENESIS
                ∧ anchorStatus st = AnchorStatus.NOT_REQUESTED)
               ∨ (anchorStatus st = AnchorStatus.ANCHORED
                  ∧ ∃ commit cid context h0 r0,
                      reachable STREAM_TYPE_ID toLowerCase validateLink h0 r0
                      ∧ applyCommit STREAM_TYPE_ID toLowerCase validateLink commit cid
                          context (Some r0) h0 = Some (Normal r, h)
                      ∧ ipfs_dag_get context (proof commit) IPFS_GET_TIMEOUT
                        = inr (anchorProof st))
               ∨ (anchorStatus st = AnchorStatus.NOT_REQUESTED
                  ∧ ∃ commit cid context h0 r0 p n m,
                      reachable STREAM_TYPE_ID toLowerCase validateLink h0 r0
                      ∧ applyCommit STREAM_TYPE_ID toLowerCase validateLink commit cid
                          context (Some r0) h0 = Some (Normal r, h)
                      ∧ validateLink (data commit) = inr (Some p)
                      ∧ next st = Some n ∧ next_metadata n = Some m
                      ∧ lastUpdate m = Some (timestamp p))))
    as (st & Hst & Hlast).
  { destruct Hreach as [commit cid context h0 h1 r1 H
                       |commit cid context h0 r0 h1 r1 Hprev H].
    - destruct (applyCommit_genesis_result _ _ _ _ _ _ H) as (st & Hst & Hs & Ha).
      exists st. split; [done|]. by left.
    - destruct (applyCommit_later_result _ _ _ _ _ _ _ H)
        as (st & Hst & [[Ha Hf]|[Ha (p & n & m & Hv & Hn & Hm & Hlu)]]).
      + exists st. split; [done|]. right; left. split; [done|].
        by exists commit, cid, context, h0, r0.
      + exists st. split; [done|]. right; right. split; [done|].
        by exists commit, cid, context, h0, r0, p, n, m. }
  assert (∀ p, signature st = SignatureStatus.GENESIS
               ∨ anchorStatus st ≠ AnchorStatus.ANCHORED
               ∨ is_Some (anchorProof st) →
               ∃ b, proofTooOld st p = inr b) as Hbool.
  { intros p Hcase.
    unfold proofTooOld, and_js, or_js, deref, mbind, exn_bind.
    case_bool_decide as Hs; [|by eexists].
    case_bool_decide as Ha.
    - destruct Hcase as [?|[?|[ap Hap]]]; [done..|]. rewrite Hap.
      rewrite bool_decide_eq_false_2 by (by intros []).
      destruct (_ <? _); by eexists.
    - rewrite bool_decide_eq_true_2 by done.
      destruct Hlast
        as [[? _]|[[? _]|[_ (? & ? & ? & ? & ? & ? & n & m & _ & _ & _ & -> & -> & _)]]];
        [done..|].
      by eexists. }
  exists st. split; [done|]. split; [|split; [|split; [|done]]].
  - intros Hs Ha.
    destruct Hlast as [[? _]|[[? _]|[_ Hsigned]]]; [done..|].
    destruct Hsigned
      as (commit & cid & context & h0 & r0 & p & n & m & Hprev & Hrun & Hv & Hn & Hm & Hlu).
    by exists commit, cid, context, h0, r0, p, n, m.
  - intros Ha.
    destruct Hlast as [[_ Hn]|[[_ Hanchor]|[Hn _]]]; [congruence| |congruence].
    done.
  - intros p. split.
    + intros Herr.
      destruct (decide (signature st = SignatureStatus.GENESIS)) as [Hs|Hs].
      { destruct (Hbool p (or_introl Hs)) as [b Hb]. congruence. }
      destruct (decide (anchorStatus st = AnchorStatus.ANCHORED)) as [Ha|Ha]; last first.
      { destruct (Hbool p (or_intror (or_introl Ha))) as [b Hb]. congruence. }
      assert (anchorProof st = None ∨ is_Some (anchorProof st)) as [Hap|Hap]
        by (destruct (anchorProof st); eauto).
      { done. }
      destruct (Hbool p (or_intror (or_intror Hap))) as [b Hb]. congruence.
    + intros (Hs & Ha & Hap).
      unfold proofTooOld, and_js, or_js, deref, mbind, exn_bind.
      rewrite Hap. by rewrite !bool_decide_eq_true_2 by done.
Qed.

End Properties.

(** * Aliasing, invariants and composition *)

Section Composition.

Variable STREAM_TYPE_ID : Z.
Variable toLowerCase : string → string.
Variable validateLink : Verifier.

(** *** The heap a successful application leaves *)

Lemma applySigned_normal_heap commit cid state h r' h' :
  _applySigned toLowerCase validateLink commit cid state h = Some (Normal r', h') →
  ∃ st es p acct cs c,
    states h !! state = Some st
    ∧ arrays h !! log st = Some es
    ∧ validateLink (data commit) = inr (Some p)
    ∧ proofTooOld st p = inr false
    ∧ or_string (account p) (address p) = Some acct
    ∧ controllers (metadata st) = Some cs
    ∧ cs !! 0%nat = Some c
    ∧ toLowerCase (addressCaip10 acct) = toLowerCase c
    ∧ r' = fresh (dom (states h))
    ∧ h' = {| states := <[r' := signedResult st p]> (states h);
              arrays := <[log st := es ++ [{| entry_cid := cid;
                                              entry_type := CommitType.SIGNED |}]]>
                          (arrays h) |}.
Proof.
  intros H.
  destruct (applySigned_normal_inv _ _ _ _ _ _ _ _ H)
    as (st & es & p & acct & cs & c & Hst & Hes & Hv & Hold & Hacct & Hcs & Hc & Heq).
  rewrite (applySigned_run _ _ _ cid _ _ _ _ _ _ _ _ Hst Hes Hv Hold Hacct Hcs Hc Heq) in H.
  simplify_eq. by exists st, es, p, acct, cs, c.
Qed.

Lemma applyAnchor_normal_heap context commit cid state h r' h' :
  _applyAnchor context commit cid state h = Some (Normal r', h') →
  ∃ st es fetched,
    states h !! state = Some st
    ∧ arrays h !! log st = Some es
    ∧ ipfs_dag_get context (proof commit) IPFS_GET_TIMEOUT = inr fetched
    ∧ r' = fresh (dom (<[state := delete_next_and_schedule st]> (states h)))
    ∧ h' = {| states := <[r' := anchorResult st fetched]>
                          (<[state := delete_next_and_schedule st]> (states h));
              arrays := <[log st := es ++ [{| entry_cid := cid;
                                              entry_type := CommitType.ANCHOR |}]]>
                          (arrays h) |}.
Proof.
  intros H.
  destruct (applyAnchor_normal_inv _ _ _ _ _ _ _ H) as (st & es & f & Hf & Hst & Hes).
  rewrite (applyAnchor_run _ _ cid _ _ _ _ _ Hf Hst Hes) in H. simpl in H.
  simplify_eq. by exists st, es, f.
Qed.

Lemma fresh_after_update (m : gmap loc StreamState) r st st0 :
  m !! r = Some st →
  fresh (dom (<[r := st0]> m)) ≠ r ∧ m !! fresh (dom (<[r := st0]> m)) = None.
Proof.
  intros Hr. pose proof (is_fresh (dom (<[r := st0]> m))) as Hfresh.
  split.
  - intros E. apply Hfresh. rewrite E. apply elem_of_dom.
    rewrite lookup_insert_eq. by eexists.
  - destruct (m !! fresh (dom (<[r := st0]> m))) as [s|] eqn:Hs; [|done].
    destruct Hfresh. apply elem_of_dom.
    destruct (decide (r = fresh (dom (<[r := st0]> m)))) as [E|Hne].
    + rewrite <- E. rewrite lookup_insert_eq. by eexists.
    + rewrite lookup_insert_ne by done. by eexists.
Qed.

(** *** What a successful application does to the state it was given *)

(** X1: a successful anchor application changes the state object it was
    given: afterwards that object has neither [next] nor
    [anchorScheduledFor], while its content, statuses, anchor proof, metadata
    and log reference are as before; the returned state is another object
    that shares the log array. *)
Theorem anchor_deletes_from_prior_state context commit cid state h st r' h' :
  states h !! state = Some st →
  _applyAnchor context commit cid state h = Some (Normal r', h') →
  r' ≠ state
  ∧ ∃ prior st',
      states h' !! state = Some prior
      ∧ states h' !! r' = Some st'
      ∧ next prior = None
      ∧ anchorScheduledFor prior = None
      ∧ content prior = content st
      ∧ signature prior = signature st
      ∧ anchorStatus prior = anchorStatus st
      ∧ anchorProof prior = anchorProof st
      ∧ metadata prior = metadata st
      ∧ log prior = log st
      ∧ log st' = log st.
Proof.
  intros Hst H.
  destruct (applyAnchor_normal_heap _ _ _ _ _ _ _ H)
    as (st0 & es & f & Hst0 & Hes & Hf & -> & ->).
  simplify_eq.
  destruct (fresh_after_update (states h) state st (delete_next_and_schedule st) Hst)
    as [Hne _].
  split; [done|].
  exists (delete_next_and_schedule st), (anchorResult st f). simpl.
  rewrite lookup_insert_ne by done. rewrite !lookup_insert_eq. done.
Qed.

(** X2: a successful signed application leaves the state object it was given
    as it is, but not the log that object refers to: the returned state has
    the same log reference, so the new entry is also in the log of the prior
    state. *)
Theorem signed_shares_log_with_prior_state commit cid state h st es r' h' :
  states h !! state = Some st →
  arrays h !! log st = Some es →
  _applySigned toLowerCase validateLink commit cid state h = Some (Normal r', h') →
  r' ≠ state
  ∧ states h' !! state = Some st
  ∧ arrays h' !! log st
    = Some (es ++ [{| entry_cid := cid; entry_type := CommitType.SIGNED |}])
  ∧ ∃ st', states h' !! r' = Some st' ∧ log st' = log st.
Proof.
  intros Hst Hes H.
  destruct (applySigned_normal_heap _ _ _ _ _ _ H)
    as (st0 & es0 & p & acct & cs & c & Hst0 & Hes0 & _ & _ & _ & _ & _ & _ & -> & ->).
  simplify_eq.
  assert (fresh (dom (states h)) ≠ state) as Hne.
  { intros E. pose proof (fresh_state_lookup (states h)) as Hnone.
    rewrite E, Hst in Hnone. done. }
  split; [done|]. simpl.
  rewrite lookup_insert_ne by done. rewrite !lookup_insert_eq.
  split; [done|]. split; [done|]. by exists (signedResult st p).
Qed.

(** X3: a successful [applyCommit] returns a reference that was not
    allocated before; every state object other than the prior state and the
    returned one, and every array other than the log of the prior state, is
    left as it was. *)
Theorem applyCommit_frame commit cid context state h r' h' :
  applyCommit STREAM_TYPE_ID toLowerCase validateLink commit cid context state h
    = Some (Normal r', h') →
  states h !! r' = None
  ∧ is_Some (states h' !! r')
  ∧ (∀ r0 st0, state ≠ Some r0 → states h !! r0 = Some st0 →
       states h' !! r0 = Some st0)
  ∧ (∀ l es, arrays h !! l = Some es →
       (∀ r st, state = Some r → states h !! r = Some st → l ≠ log st) →
       arrays h' !! l = Some es).
Proof.
  intros H. destruct state as [r|]; simpl in H.
  - case_bool_decide.
    + destruct (applyAnchor_normal_heap _ _ _ _ _ _ _ H)
        as (st & es & f & Hst & Hes & Hf & -> & ->).
      destruct (fresh_after_update (states h) r st (delete_next_and_schedule st) Hst)
        as [Hne Hnone].
      split; [done|]. simpl. split; [by rewrite lookup_insert_eq|]. split.
      * intros r0 st0 Hr0 Hst0.
        assert (r0 ≠ r) by congruence.
        rewrite !lookup_insert_ne; [done..|]. intros E. rewrite E in Hnone. congruence.
      * intros l es0 Hl Hlog. rewrite lookup_insert_ne; [done|].
        intros E. by apply (Hlog r st).
    + destruct (applySigned_normal_heap _ _ _ _ _ _ H)
        as (st & es & p & acct & cs & c & Hst & Hes & _ & _ & _ & _ & _ & _ & -> & ->).
      pose proof (fresh_state_lookup (states h)) as Hnone.
      split; [done|]. simpl. split; [by rewrite lookup_insert_eq|]. split.
      * intros r0 st0 Hr0 Hst0.
        rewrite lookup_insert_ne; [done|]. intros E. rewrite E in Hnone. congruence.
      * intros l es0 Hl Hlog. rewrite lookup_insert_ne; [done|].
        intros E. by apply (Hlog r st).
  - destruct (applyGenesis_normal_inv _ _ _ _ _ _ H) as (hdr & Hd & Hh & Hone).
    rewrite (applyGenesis_run _ _ cid h _ Hd Hh Hone) in H. simplify_eq.
    pose proof (fresh_state_lookup (states h)) as Hnone.
    split; [done|]. simpl. split; [by rewrite lookup_insert_eq|]. split.
    + intros r0 st0 _ Hst0.
      rewrite lookup_insert_ne; [done|]. intros E. rewrite E in Hnone. congruence.
    + intros l es0 Hl _. rewrite lookup_insert_ne; [done|].
      intros E. pose proof (is_fresh (dom (arrays h))) as Hfresh.
      rewrite E in Hfresh. apply Hfresh, elem_of_dom. eauto.
Qed.

(** *** Invariants of reachable states *)

Lemma applyCommit_step commit cid context r h st es r' h' :
  states h !! r = Some st →
  arrays h !! log st = Some es →
  applyCommit STREAM_TYPE_ID toLowerCase validateLink commit cid context (Some r) h
    = Some (Normal r', h') →
  (∃ f, states h' !! r' = Some (anchorResult st f)
        ∧ arrays h' !! log st
          = Some (es ++ [{| entry_cid := cid; entry_type := CommitType.ANCHOR |}]))
  ∨ (∃ p, validateLink (data commit) = inr (Some p)
          ∧ proofTooOld st p = inr false
          ∧ states h' !! r' = Some (signedResult st p)
          ∧ arrays h' !! log st
            = Some (es ++ [{| entry_cid := cid; entry_type := CommitType.SIGNED |}])).
Proof.
  intros Hst Hes H. simpl in H. case_bool_decide.
  - destruct (applyAnchor_normal_heap _ _ _ _ _ _ _ H)
      as (st0 & es0 & f & Hst0 & Hes0 & Hf & -> & ->).
    simplify_eq. left. exists f. simpl. by rewrite !lookup_insert_eq.
  - destruct (applySigned_normal_heap _ _ _ _ _ _ H)
      as (st0 & es0 & p & acct & cs & c & Hst0 & Hes0 & Hv & Hold & _ & _ & _ & _ & -> & ->).
    simplify_eq. right. exists p. simpl. by rewrite !lookup_insert_eq.
Qed.

(** A property of a state and its log holds in every reachable state when it
    holds of the genesis result and is kept by the anchor and signed
    results. *)
Lemma reachable_invariant (P : StreamState → list LogEntry → Prop) :
  (∀ hdr l cid, oneController hdr = true →
     P (genesisResult STREAM_TYPE_ID hdr l)
       [{| entry_cid := cid; entry_type := CommitType.GENESIS |}]) →
  (∀ st es f cid, P st es →
     P (anchorResult st f)
       (es ++ [{| entry_cid := cid; entry_type := CommitType.ANCHOR |}])) →
  (∀ st es p cid, P st es → proofTooOld st p = inr false →
     P (signedResult st p)
       (es ++ [{| entry_cid := cid; entry_type := CommitType.SIGNED |}])) →
  ∀ h r, reachable STREAM_TYPE_ID toLowerCase validateLink h r →
    ∃ st es, states h !! r = Some st ∧ arrays h !! log st = Some es ∧ P st es.
Proof.
  intros Hgenesis Hanchor Hsigned h r Hreach.
  induction Hreach as [commit cid context h h' r H
                      |commit cid context h r h' r' _ (st & es & Hst & Hes & HP) H].
  - simpl in H.
    destruct (applyGenesis_normal_inv _ _ _ _ _ _ H) as (hdr & Hd & Hh & Hone).
    rewrite (applyGenesis_run _ _ cid h _ Hd Hh Hone) in H. simplify_eq.
    exists (genesisResult STREAM_TYPE_ID hdr (fresh (dom (arrays h)))),
      [{| entry_cid := cid; entry_type := CommitType.GENESIS |}].
    simpl. rewrite !lookup_insert_eq.
    split; [done|]. split; [done|]. by apply Hgenesis.
  - destruct (applyCommit_step _ _ _ _ _ _ _ _ _ Hst Hes H)
      as [(f & Hst' & Hes')|(p & _ & Hold & Hst' & Hes')].
    + eexists _, _. split; [done|]. split; [done|]. by apply Hanchor.
    + eexists _, _. split; [done|]. split; [done|]. by apply Hsigned.
Qed.

(** X4: in every reachable state the stream type is the handler's and the
    metadata has exactly one controller, which is also the controller list of
    a pending update's metadata. *)
Theorem reachable_has_one_controller h r :
  reachable STREAM_TYPE_ID toLowerCase validateLink h r →
  ∃ st c,
    states h !! r = Some st
    ∧ type st = STREAM_TYPE_ID
    ∧ controllers (metadata st) = Some [c]
    ∧ ∀ n m, next st = Some n → next_metadata n = Some m →
        controllers m = Some [c].
Proof.
  intros Hreach.
  destruct (reachable_invariant
              (λ st _, type st = STREAM_TYPE_ID
                       ∧ ∃ c, controllers (metadata st) = Some [c]
                              ∧ ∀ n m, next st = Some n → next_metadata n = Some m →
                                  controllers m = Some [c]))
    with (h := h) (r := r) as (st & es & Hst & _ & Htype & c & Hc & Hnext); [..|done|].
  - intros hdr l cid Hone. simpl. split; [done|].
    apply oneController_true in Hone as [c Hc]. exists c. split; [done|].
    intros n m [= <-]. done.
  - intros st es f cid (Htype & c & Hc & _). simpl. split; [done|].
    exists c. by split.
  - intros st es p cid (Htype & c & Hc & _) _. simpl. split; [done|].
    exists c. split; [done|]. intros n m [= <-] [= <-]. done.
  - by exists st, c.
Qed.

(** X5: in every reachable state the anchor status is ANCHORED or
    NOT_REQUESTED, and it is ANCHORED exactly when [next] is absent and
    exactly when the last log entry is an anchor entry; no reachable state
    has [anchorScheduledFor]. *)
Theorem reachable_anchor_status h r :
  reachable STREAM_TYPE_ID toLowerCase validateLink h r →
  ∃ st es,
    states h !! r = Some st
    ∧ arrays h !! log st = Some es
    ∧ (anchorStatus st = AnchorStatus.ANCHORED
       ∨ anchorStatus st = AnchorStatus.NOT_REQUESTED)
    ∧ (anchorStatus st = AnchorStatus.ANCHORED ↔ next st = None)
    ∧ (anchorStatus st = AnchorStatus.ANCHORED
       ↔ entry_type <$> last es = Some CommitType.ANCHOR)
    ∧ anchorScheduledFor st = None.
Proof.
  intros Hreach.
  apply (reachable_invariant
           (λ st es,
              (anchorStatus st = AnchorStatus.ANCHORED
               ∨ anchorStatus st = AnchorStatus.NOT_REQUESTED)
              ∧ (anchorStatus st = AnchorStatus.ANCHORED ↔ next st = None)
              ∧ (anchorStatus st = AnchorStatus.ANCHORED
                 ↔ entry_type <$> last es = Some CommitType.ANCHOR)
              ∧ anchorScheduledFor st = None)); [..|done].
  - intros hdr l cid _. simpl. by repeat split; try right.
  - intros st es f cid _. simpl. rewrite last_snoc. simpl.
    by repeat split; try left.
  - intros st es p cid (_ & _ & _ & Hsched) _. simpl. rewrite last_snoc. simpl.
    by repeat split; try right.
Qed.

(** X6: the log of every reachable state starts with the one genesis entry
    and has none after it; the signature status is SIGNED exactly when the
    log has a signed entry, and while it is GENESIS both the content and the
    pending content are null. *)
Theorem reachable_log_shape h r :
  reachable STREAM_TYPE_ID toLowerCase validateLink h r →
  ∃ st cid0 rest,
    states h !! r = Some st
    ∧ arrays h !! log st
      = Some ({| entry_cid := cid0; entry_type := CommitType.GENESIS |} :: rest)
    ∧ Forall (λ e, entry_type e ≠ CommitType.GENESIS) rest
    ∧ (signature st = SignatureStatus.SIGNED
       ↔ Exists (λ e, entry_type e = CommitType.SIGNED) rest)
    ∧ (signature st = SignatureStatus.GENESIS →
         content st = None ∧ (n ← next st; next_content n) = None).
Proof.
  intros Hreach.
  destruct (reachable_invariant
              (λ st es,
                 ∃ cid0 rest,
                   es = {| entry_cid := cid0; entry_type := CommitType.GENESIS |} :: rest
                   ∧ Forall (λ e, entry_type e ≠ CommitType.GENESIS) rest
                   ∧ (signature st = SignatureStatus.SIGNED
                      ↔ Exists (λ e, entry_type e = CommitType.SIGNED) rest)
                   ∧ (signature st = SignatureStatus.GENESIS →
                        content st = None ∧ (n ← next st; next_content n) = None)))
    with (h := h) (r := r)
    as (st & es & Hst & Hes & cid0 & rest & -> & Hall & Hsig & Hnull); [..|done|].
  - intros hdr l cid _. exists cid, []. simpl.
    split; [done|]. split; [done|]. split; [|done].
    split; [done|]. by intros ?%Exists_nil.
  - intros st es f cid (cid0 & rest & -> & Hall & Hsig & Hnull).
    exists cid0, (rest ++ [{| entry_cid := cid; entry_type := CommitType.ANCHOR |}]).
    simpl. split; [done|]. split; [|split].
    + apply Forall_app. split; [done|]. by repeat constructor.
    + rewrite Hsig, Exists_app, Exists_cons, Exists_nil. simpl.
      split; [by left|]. by intros [?|[?|[]]].
    + intros Hg. destruct (Hnull Hg) as [Hc Hn]. rewrite Hn. simpl. done.
  - intros st es p cid (cid0 & rest & -> & Hall & Hsig & Hnull) _.
    exists cid0, (rest ++ [{| entry_cid := cid; entry_type := CommitType.SIGNED |}]).
    simpl. split; [done|]. split; [|split].
    + apply Forall_app. split; [done|]. by repeat constructor.
    + rewrite Exists_app, Exists_cons. simpl.
      split; [|done]. intros _. right. by left.
    + done.
  - by exists st, cid0, rest.
Qed.

(** *** One application after another *)

Lemma proofTooOld_after_signed st p p2 :
  proofTooOld (signedResult st p) p2 = inr (timestamp p2 <? timestamp p).
Proof. reflexivity. Qed.

Lemma proofTooOld_after_anchor st f p2 :
  proofTooOld (anchorResult st (Some f)) p2
  = inr (bool_decide (signature st ≠ SignatureStatus.GENESIS)
         && (timestamp p2 <? blockTimestamp f)).
Proof.
  unfold proofTooOld, and_js, or_js. simpl.
  case_bool_decide; [|done]. simpl. by destruct (_ <? _).
Qed.

Lemma applySigned_stale commit cid state h st p :
  states h !! state = Some st →
  validateLink (data commit) = inr (Some p) →
  proofTooOld st p = inr true →
  _applySigned toLowerCase validateLink commit cid state h = Some (Abrupt StaleProofError, h).
Proof.
  intros Hst Hv Hold.
  unfold _applySigned, mbind, M_bind, mret, M_ret, throw, lift, get_state.
  rewrite Hv; simpl. by rewrite Hst, Hold.
Qed.

(** X7: the signed commit that was just applied is accepted again: applied to
    the state it returned, with its timestamp equal to the pending update's
    [lastUpdate], it passes every check and the log gets a second entry. *)
Theorem signed_commit_replay_accepted commit cid cid2 state h st es r' h' :
  states h !! state = Some st →
  arrays h !! log st = Some es →
  _applySigned toLowerCase validateLink commit cid state h = Some (Normal r', h') →
  ∃ r'' h'' st'',
    _applySigned toLowerCase validateLink commit cid2 r' h' = Some (Normal r'', h'')
    ∧ states h'' !! r'' = Some st''
    ∧ arrays h'' !! log st''
      = Some (es ++ [{| entry_cid := cid; entry_type := CommitType.SIGNED |};
                     {| entry_cid := cid2; entry_type := CommitType.SIGNED |}]).
Proof.
  intros Hst Hes H.
  destruct (applySigned_normal_heap _ _ _ _ _ _ H)
    as (st0 & es0 & p & acct & cs & c & Hst0 & Hes0 & Hv & Hold & Hacct & Hcs & Hc & Heq
        & -> & ->).
  simplify_eq.
  set (h1 := {| states := <[fresh (dom (states h)) := signedResult st p]> (states h);
                arrays := <[log st := es ++ [{| entry_cid := cid;
                                                entry_type := CommitType.SIGNED |}]]>
                            (arrays h) |}).
  assert (states h1 !! fresh (dom (states h)) = Some (signedResult st p)) as Hst1
    by apply lookup_insert_eq.
  assert (arrays h1 !! log (signedResult st p)
          = Some (es ++ [{| entry_cid := cid; entry_type := CommitType.SIGNED |}])) as Hes1
    by apply lookup_insert_eq.
  assert (proofTooOld (signedResult st p) p = inr false) as Hold1.
  { rewrite proofTooOld_after_signed. by rewrite Z.ltb_irrefl. }
  rewrite (applySigned_run _ _ _ cid2 _ _ _ _ _ _ _ _ Hst1 Hes1 Hv Hold1 Hacct Hcs Hc Heq).
  eexists _, _, _. split; [done|]. simpl.
  split; [apply lookup_insert_eq|]. simpl.
  rewrite lookup_insert_eq. by rewrite <- app_assoc.
Qed.

(** X8: after a signed commit with proof timestamp [t] has been applied, a
    signed commit whose verified proof has a timestamp below [t] is rejected
    as stale by the returned state, and the heap stays as it is. *)
Theorem older_proof_after_signed_is_stale commit cid commit2 cid2 state h p p2 r' h' :
  _applySigned toLowerCase validateLink commit cid state h = Some (Normal r', h') →
  validateLink (data commit) = inr (Some p) →
  validateLink (data commit2) = inr (Some p2) →
  timestamp p2 < timestamp p →
  _applySigned toLowerCase validateLink commit2 cid2 r' h' = Some (Abrupt StaleProofError, h').
Proof.
  intros H Hv Hv2 Hlt.
  destruct (applySigned_normal_heap _ _ _ _ _ _ H)
    as (st & es & p0 & acct & cs & c & Hst & Hes & Hv0 & _ & _ & _ & _ & _ & -> & ->).
  assert (p0 = p) as -> by congruence. simplify_eq.
  eapply applySigned_stale; [simpl; apply lookup_insert_eq|exact Hv2|].
  rewrite proofTooOld_after_signed. f_equal. by apply Z.ltb_lt.
Qed.

(** X9: a signed commit followed by an anchor commit whose proof fetch
    succeeds: the anchor is applied to the returned state, the content
    becomes the DID of the signed commit's proof when that DID is not the
    empty string and stays the prior content when it is, the state is SIGNED
    and ANCHORED without pending update, and the log has the two entries
    appended in order. *)
Theorem signed_then_anchor commit cid commit2 cid2 context state h st es p f r' h' :
  states h !! state = Some st →
  arrays h !! log st = Some es →
  _applySigned toLowerCase validateLink commit cid state h = Some (Normal r', h') →
  validateLink (data commit) = inr (Some p) →
  ipfs_dag_get context (proof commit2) IPFS_GET_TIMEOUT = inr f →
  ∃ r'' h'' st'',
    _applyAnchor context commit2 cid2 r' h' = Some (Normal r'', h'')
    ∧ states h'' !! r'' = Some st''
    ∧ (did p ≠ "" → content st'' = Some (did p))
    ∧ (did p = "" → content st'' = content st)
    ∧ signature st'' = SignatureStatus.SIGNED
    ∧ anchorStatus st'' = AnchorStatus.ANCHORED
    ∧ anchorProof st'' = f
    ∧ next st'' = None
    ∧ arrays h'' !! log st''
      = Some (es ++ [{| entry_cid := cid; entry_type := CommitType.SIGNED |};
                     {| entry_cid := cid2; entry_type := CommitType.ANCHOR |}]).
Proof.
  intros Hst Hes H Hv Hf.
  destruct (applySigned_normal_heap _ _ _ _ _ _ H)
    as (st0 & es0 & p0 & acct & cs & c & Hst0 & Hes0 & Hv0 & _ & _ & _ & _ & _ & -> & ->).
  assert (p0 = p) as -> by congruence. simplify_eq.
  set (h1 := {| states := <[fresh (dom (states h)) := signedResult st p]> (states h);
                arrays := <[log st := es ++ [{| entry_cid := cid;
                                                entry_type := CommitType.SIGNED |}]]>
                            (arrays h) |}).
  assert (states h1 !! fresh (dom (states h)) = Some (signedResult st p)) as Hst1
    by apply lookup_insert_eq.
  assert (arrays h1 !! log (signedResult st p)
          = Some (es ++ [{| entry_cid := cid; entry_type := CommitType.SIGNED |}])) as Hes1
    by apply lookup_insert_eq.
  rewrite (applyAnchor_run _ _ cid2 _ _ _ _ _ Hf Hst1 Hes1).
  eexists _, _, _. split; [done|]. simpl.
  split; [apply lookup_insert_eq|]. simpl.
  split; [|split].
  - intros Hne. by destruct (String.eqb_spec (did p) "").
  - intros ->. done.
  - repeat (split; [done|]). rewrite lookup_insert_eq. by rewrite <- app_assoc.
Qed.

(** X10: on a state whose signature status is GENESIS the timestamp check
    rejects nothing: a verified signed commit with a matching controller is
    applied whatever its timestamp, also on an ANCHORED state whose anchor
    block timestamp is above it. *)
Theorem first_signed_commit_is_never_stale commit cid state h st es p acct cs c :
  states h !! state = Some st →
  arrays h !! log st = Some es →
  signature st = SignatureStatus.GENESIS →
  validateLink (data commit) = inr (Some p) →
  or_string (account p) (address p) = Some acct →
  controllers (metadata st) = Some cs →
  cs !! 0%nat = Some c →
  toLowerCase (addressCaip10 acct) = toLowerCase c →
  ∃ r' h' st',
    _applySigned toLowerCase validateLink commit cid state h = Some (Normal r', h')
    ∧ states h' !! r' = Some st'
    ∧ signature st' = SignatureStatus.SIGNED
    ∧ (n ← next st'; m ← next_metadata n; lastUpdate m) = Some (timestamp p).
Proof.
  intros Hst Hes Hsig Hv Hacct Hcs Hc Heq.
  assert (proofTooOld st p = inr false) as Hold.
  { unfold proofTooOld, and_js. by rewrite bool_decide_eq_false_2 by naive_solver. }
  rewrite (applySigned_run _ _ _ cid _ _ _ _ _ _ _ _ Hst Hes Hv Hold Hacct Hcs Hc Heq).
  eexists _, _, _. split; [done|]. simpl.
  split; [apply lookup_insert_eq|]. done.
Qed.

(** X15: after an anchor commit the checkpoint of the timestamp check is the
    block timestamp of the proof just fetched, whatever the anchor proof or
    pending update of the state before: on the returned state a verified
    proof below that block timestamp is stale when the signature status is
    not GENESIS, and one at or above it passes the check. *)
Theorem checkpoint_after_anchor context commit cid commit2 cid2 state h st f p2 r' h' :
  states h !! state = Some st →
  _applyAnchor context commit cid state h = Some (Normal r', h') →
  ipfs_dag_get context (proof commit) IPFS_GET_TIMEOUT = inr (Some f) →
  validateLink (data commit2) = inr (Some p2) →
  (signature st ≠ SignatureStatus.GENESIS → timestamp p2 < blockTimestamp f →
     _applySigned toLowerCase validateLink commit2 cid2 r' h' = Some (Abrupt StaleProofError, h'))
  ∧ (blockTimestamp f ≤ timestamp p2 →
     ¬ ∃ h'', _applySigned toLowerCase validateLink commit2 cid2 r' h'
              = Some (Abrupt StaleProofError, h'')).
Proof.
  intros Hst H Hf Hv2.
  destruct (applyAnchor_normal_heap _ _ _ _ _ _ _ H)
    as (st0 & es & f0 & Hst0 & Hes & Hf0 & -> & ->).
  assert (f0 = Some f) as -> by congruence. simplify_eq.
  set (objs := <[state := delete_next_and_schedule st]> (states h)).
  set (h1 := {| states := <[fresh (dom objs) := anchorResult st (Some f)]> objs;
                arrays := <[log st := es ++ [{| entry_cid := cid;
                                                entry_type := CommitType.ANCHOR |}]]>
                            (arrays h) |}).
  assert (states h1 !! fresh (dom objs) = Some (anchorResult st (Some f))) as Hst1
    by apply lookup_insert_eq.
  split.
  - intros Hsig Hlt. eapply applySigned_stale; [exact Hst1|exact Hv2|].
    rewrite proofTooOld_after_anchor.
    rewrite bool_decide_eq_true_2 by done. simpl. f_equal. by apply Z.ltb_lt.
  - intros Hle Hstale.
    apply (applySigned_stale_iff _ _ _ _ _ _ _ _ Hst1 Hv2) in Hstale.
    rewrite proofTooOld_after_anchor in Hstale.
    assert ((timestamp p2 <? blockTimestamp f) = false) as Hge by by apply Z.ltb_ge.
    rewrite Hge, andb_false_r in Hstale. done.
Qed.

(** *** Missing properties *)

(** X14: a signed commit whose proof verifies ends in a TypeError, with the
    heap unchanged, when a property the handler reads is missing: the anchor
    proof of an ANCHORED state or the pending update (or its metadata) of a
    state that is not ANCHORED, when the signature status is not GENESIS;
    and, once the timestamp check has passed, the proof's account and address
    (the account missing or empty and the address missing) or the first
    controller. *)
Theorem signed_commit_type_errors commit cid state h st p :
  states h !! state = Some st →
  validateLink (data commit) = inr (Some p) →
  (signature st ≠ SignatureStatus.GENESIS →
   anchorStatus st = AnchorStatus.ANCHORED → anchorProof st = None →
     _applySigned toLowerCase validateLink commit cid state h = Some (Abrupt TypeError, h))
  ∧ (signature st ≠ SignatureStatus.GENESIS →
     anchorStatus st ≠ AnchorStatus.ANCHORED →
     next st = None ∨ (∃ n, next st = Some n ∧ next_metadata n = None) →
       _applySigned toLowerCase validateLink commit cid state h = Some (Abrupt TypeError, h))
  ∧ (proofTooOld st p = inr false →
     account p = None ∨ account p = Some "" → address p = None →
       _applySigned toLowerCase validateLink commit cid state h = Some (Abrupt TypeError, h))
  ∧ (proofTooOld st p = inr false →
     is_Some (or_string (account p) (address p)) →
     controllers (metadata st) = None ∨ controllers (metadata st) = Some [] →
       _applySigned toLowerCase validateLink commit cid state h = Some (Abrupt TypeError, h)).
Proof.
  intros Hst Hv.
  unfold _applySigned, mbind, M_bind, mret, M_ret, throw, lift, get_state.
  rewrite Hv; simpl. rewrite Hst.
  split; [|split; [|split]].
  - intros Hsig Ha Hap.
    unfold proofTooOld, and_js, or_js, deref, mbind, exn_bind.
    rewrite Hap. by rewrite !bool_decide_eq_true_2 by done.
  - intros Hsig Ha Hn.
    unfold proofTooOld, and_js, or_js, deref, mbind, exn_bind.
    rewrite (bool_decide_eq_true_2 (signature st ≠ SignatureStatus.GENESIS)) by done.
    rewrite (bool_decide_eq_false_2 (anchorStatus st = AnchorStatus.ANCHORED)) by done.
    rewrite (bool_decide_eq_true_2 (anchorStatus st ≠ AnchorStatus.ANCHORED)) by done.
    destruct Hn as [->|(n & -> & ->)]; done.
  - intros -> Hacc Hadd. simpl.
    assert (or_string (account p) (address p) = None) as ->; [|done].
    unfold or_string. rewrite Hadd. by destruct Hacc as [->| ->].
  - intros -> [acct ->] Hcs. simpl.
    by destruct Hcs as [->| ->].
Qed.

(** *** The normalized account *)

Lemma split_segments sep s :
  Forall (λ t, contains sep t = false) (split sep s).
Proof.
  induction s as [|c r IH]; simpl; [by repeat constructor|].
  destruct (Ascii.eqb c sep) eqn:Hc; [by constructor|].
  destruct (split sep r) as [|x xs]; [by repeat constructor; simpl; rewrite Hc|].
  apply Forall_cons in IH as [Hx Hxs].
  constructor; [|done]. simpl. by rewrite Hc, Hx.
Qed.

Lemma count_char_absent c s : contains c s = false → count_char c s = 0%nat.
Proof.
  induction s as [|c' r IH]; simpl; [done|].
  intros [-> Hr]%orb_false_iff. by rewrite IH.
Qed.

Lemma count_char_app c a b :
  count_char c (a +:+ b) = (count_char c a + count_char c b)%nat.
Proof. induction a as [|c' r IH]; simpl; [done|]. rewrite IH. lia. Qed.

Lemma addressCaip10_one_separator s : count_char "@" (addressCaip10 s) = 1%nat.
Proof.
  unfold addressCaip10, join2.
  pose proof (split_segments "@" s) as Hseg.
  rewrite !count_char_app.
  assert (∀ i, count_char "@" (default "" (split "@" s !! i)) = 0%nat) as Hzero.
  { intros i. destruct (split "@" s !! i) as [t|] eqn:Ht; simpl; [|done].
    apply count_char_absent. by eapply (Forall_lookup_1 _ _ _ _ Hseg). }
  by rewrite !Hzero.
Qed.

(** X12: only the first two ['@']-separated segments of the proof's account
    are compared: an account [a@b@rest] passes the controller check of a
    state whose controller is [a@b] up to case, and the commit is applied. *)
Theorem account_segments_after_second_are_ignored
    commit cid state h st es p a b rest cs c :
  states h !! state = Some st →
  arrays h !! log st = Some es →
  validateLink (data commit) = inr (Some p) →
  proofTooOld st p = inr false →
  or_string (account p) (address p) = Some (a +:+ "@" +:+ b +:+ "@" +:+ rest) →
  contains "@" a = false →
  contains "@" b = false →
  controllers (metadata st) = Some cs →
  cs !! 0%nat = Some c →
  toLowerCase c = toLowerCase (a +:+ "@" +:+ b) →
  addressCaip10 (a +:+ "@" +:+ b +:+ "@" +:+ rest) = a +:+ "@" +:+ b
  ∧ ∃ r' h', _applySigned toLowerCase validateLink commit cid state h = Some (Normal r', h').
Proof.
  intros Hst Hes Hv Hold Hacct Ha Hb Hcs Hc Hlower.
  assert (addressCaip10 (a +:+ "@" +:+ b +:+ "@" +:+ rest) = a +:+ "@" +:+ b) as Hnorm.
  { unfold addressCaip10.
    change ("@" +:+ b +:+ "@" +:+ rest) with (String "@" (b +:+ String "@" rest)).
    rewrite split_at_first_separator by done.
    rewrite split_at_first_separator by done.
    done. }
  split; [done|]. eexists _, _.
  eapply applySigned_run; eauto. by rewrite Hnorm.
Qed.

End Composition.

(** * The controller check on ASCII identifiers

    Here [toLowerCaseASCII] stands for the built-in. *)

Section AsciiIdentifiers.

Variable validateLink : Verifier.

Lemma toLowerCase_char_separator c :
  Ascii.eqb (toLowerCase_char c) "@" = Ascii.eqb c "@".
Proof. by destruct c as [[] [] [] [] [] [] [] []]. Qed.

Lemma toLowerCase_app a b :
  toLowerCaseASCII (a +:+ b) = toLowerCaseASCII a +:+ toLowerCaseASCII b.
Proof. induction a as [|c r IH]; simpl; [done|]. by rewrite IH. Qed.

Lemma split_toLowerCase s :
  split "@" (toLowerCaseASCII s) = toLowerCaseASCII <$> split "@" s.
Proof.
  induction s as [|c r IH]; simpl; [done|].
  rewrite toLowerCase_char_separator, IH.
  destruct (Ascii.eqb c "@"); [done|].
  by destruct (split "@" r).
Qed.

Lemma toLowerCase_addressCaip10 s :
  toLowerCaseASCII (addressCaip10 s) = addressCaip10 (toLowerCaseASCII s).
Proof.
  unfold addressCaip10, join2. rewrite split_toLowerCase, !list_lookup_fmap.
  rewrite !toLowerCase_app. simpl.
  by destruct (split "@" s !! 0%nat), (split "@" s !! 1%nat).
Qed.

Lemma count_char_toLowerCase s :
  count_char "@" (toLowerCaseASCII s) = count_char "@" s.
Proof.
  induction s as [|c r IH]; simpl; [done|].
  by rewrite toLowerCase_char_separator, IH.
Qed.

(** X11: the normalized account always has exactly one ['@'], so a state
    whose first controller does not have exactly one ['@'] accepts no signed
    commit: every one that reaches the controller check fails with
    [ControllerMismatchError]. *)
Theorem controller_needs_one_separator commit cid state h st p acct cs c :
  states h !! state = Some st →
  validateLink (data commit) = inr (Some p) →
  proofTooOld st p = inr false →
  or_string (account p) (address p) = Some acct →
  controllers (metadata st) = Some cs →
  cs !! 0%nat = Some c →
  count_char "@" c ≠ 1%nat →
  _applySigned toLowerCaseASCII validateLink commit cid state h
  = Some (Abrupt ControllerMismatchError, h).
Proof.
  intros Hst Hv Hold Hacct Hcs Hc Hcount.
  apply (applySigned_mismatch_iff toLowerCaseASCII validateLink _ _ _ _ _ _ _ _ _
           Hst Hv Hold Hacct Hcs Hc).
  intros Heq. apply Hcount.
  rewrite <- (count_char_toLowerCase c), <- Heq, count_char_toLowerCase.
  apply addressCaip10_one_separator.
Qed.

(** X13: the controller check depends on the proof's account and on the
    controller only up to the case of their letters: accounts that are equal
    after lower-casing, against controllers that are equal after
    lower-casing, give the same outcome of the check. *)
Theorem controller_check_ignores_case
    commit1 commit2 cid state1 state2 h st1 st2 p1 p2 acct1 acct2 cs1 cs2 c1 c2 :
  states h !! state1 = Some st1 →
  states h !! state2 = Some st2 →
  validateLink (data commit1) = inr (Some p1) →
  validateLink (data commit2) = inr (Some p2) →
  proofTooOld st1 p1 = inr false →
  proofTooOld st2 p2 = inr false →
  or_string (account p1) (address p1) = Some acct1 →
  or_string (account p2) (address p2) = Some acct2 →
  controllers (metadata st1) = Some cs1 → cs1 !! 0%nat = Some c1 →
  controllers (metadata st2) = Some cs2 → cs2 !! 0%nat = Some c2 →
  toLowerCaseASCII acct1 = toLowerCaseASCII acct2 →
  toLowerCaseASCII c1 = toLowerCaseASCII c2 →
  _applySigned toLowerCaseASCII validateLink commit1 cid state1 h
    = Some (Abrupt ControllerMismatchError, h)
  ↔ _applySigned toLowerCaseASCII validateLink commit2 cid state2 h
    = Some (Abrupt ControllerMismatchError, h).
Proof.
  intros Hst1 Hst2 Hv1 Hv2 Hold1 Hold2 Hacct1 Hacct2 Hcs1 Hc1 Hcs2 Hc2 Hacct Hc.
  rewrite (applySigned_mismatch_iff toLowerCaseASCII validateLink _ _ _ _ _ _ _ _ _
             Hst1 Hv1 Hold1 Hacct1 Hcs1 Hc1).
  rewrite (applySigned_mismatch_iff toLowerCaseASCII validateLink _ _ _ _ _ _ _ _ _
             Hst2 Hv2 Hold2 Hacct2 Hcs2 Hc2).
  by rewrite !toLowerCase_addressCaip10, Hacct, Hc.
Qed.

End AsciiIdentifiers.

(** * The handler on the sample data *)

Module SampleRuns.
Import Samples.

Example genesis_run :
  applyCommit typeId toLowerCaseASCII verifier genesisCommit "c0" contextDown None empty_heap
  = Some (Normal 1%positive, heapGenesis).
Proof. vm_compute. reflexivity. Qed.

Example signed_run :
  applyCommit typeId toLowerCaseASCII verifier (signedCommit "0xabc@eip155:1" 100 "did:example:1")
    "c1" contextDown (Some 1%positive) heapGenesis
  = Some (Normal 2%positive, heapSigned).
Proof. vm_compute. reflexivity. Qed.

Example anchor_run :
  applyCommit typeId toLowerCaseASCII verifier anchorCommit "c2" (contextWith 150)
    (Some 2%positive) heapSigned
  = Some (Normal 3%positive, heapAnchored).
Proof. vm_compute. reflexivity. Qed.

Example cleared_run :
  applyCommit typeId toLowerCaseASCII verifier (signedCommit "0xabc@eip155:1" 160 "")
    "c3" contextDown (Some 3%positive) heapAnchored
  = Some (Normal 4%positive, heapCleared).
Proof. vm_compute. reflexivity. Qed.

Example cleared_anchor_run :
  _applyAnchor (contextWith 170) anchorCommit "c4" 4%positive heapCleared
  = Some (Normal 5%positive, heapClearedAnchored).
Proof. vm_compute. reflexivity. Qed.

Example genesis_state : states heapGenesis !! 1%positive = Some stateGenesis.
Proof. vm_compute. reflexivity. Qed.

Example genesis_log : arrays heapGenesis !! 1%positive = Some logGenesis.
Proof. vm_compute. reflexivity. Qed.

Example signed_state : states heapSigned !! 2%positive = Some stateSigned.
Proof. vm_compute. reflexivity. Qed.

Example signed_log : arrays heapSigned !! 1%positive = Some logSigned.
Proof. vm_compute. reflexivity. Qed.

Example anchored_state : states heapAnchored !! 3%positive = Some stateAnchored.
Proof. vm_compute. reflexivity. Qed.

Example cleared_state : states heapCleared !! 4%positive = Some stateCleared.
Proof. vm_compute. reflexivity. Qed.

Example cleared_anchored_state :
  states heapClearedAnchored !! 5%positive = Some stateClearedAnchored.
Proof. vm_compute. reflexivity. Qed.

(** The anchor application removed [next] from the state object it was
    given: the object of state 2, returned by the signed commit with a
    pending update, no longer has one after the anchor commit. *)
Example anchor_mutates_prior_state :
  (heapSigned.(states) !! 2%positive ≫= next) ≠ None
  ∧ (heapAnchored.(states) !! 2%positive ≫= next) = None.
Proof. vm_compute. split; [discriminate|reflexivity]. Qed.

End SampleRuns.

(** * Instances on the sample data *)

Import Samples SampleRuns.

(** On the anchored sample state (block time 150) a proof at time 149 is
    stale, one at time 150 is not and is applied; on the signed sample state
    (last update 100) a proof at time 99 is stale and one at time 100 is
    not. *)
Lemma stale_proof_rejected_exactly_witness :
  (∃ h', _applySigned toLowerCaseASCII verifier (signedCommit "0xabc@eip155:1" 149 "did:example:2")
           "c3" 3%positive heapAnchored = Some (Abrupt StaleProofError, h'))
  ∧ (∃ h', _applySigned toLowerCaseASCII verifier (signedCommit "0xabc@eip155:1" 99 "did:example:2")
             "c2" 2%positive heapSigned = Some (Abrupt StaleProofError, h'))
  ∧ (¬ ∃ h', _applySigned toLowerCaseASCII verifier (signedCommit "0xabc@eip155:1" 100 "did:example:2")
               "c2" 2%positive heapSigned = Some (Abrupt StaleProofError, h'))
  ∧ (¬ ∃ h', _applySigned toLowerCaseASCII verifier (signedCommit "0xabc@eip155:1" 150 "did:example:2")
               "c3" 3%positive heapAnchored = Some (Abrupt StaleProofError, h'))
  ∧ (∃ r' h', _applySigned toLowerCaseASCII verifier (signedCommit "0xabc@eip155:1" 150 "did:example:2")
                "c3" 3%positive heapAnchored = Some (Normal r', h')).
Proof.
  split; [|split; [|split; [|split]]].
  - destruct (stale_proof_rejected_exactly toLowerCaseASCII verifier
                (signedCommit "0xabc@eip155:1" 149 "did:example:2") "c3" 3%positive
                heapAnchored stateAnchored (linkProof "0xabc@eip155:1" 149 "did:example:2")
                anchored_state eq_refl) as [Hiff _].
    apply Hiff. split; [discriminate|]. left. split; [reflexivity|].
    exists (proofAt 150). split; [reflexivity|]. simpl. lia.
  - destruct (stale_proof_rejected_exactly toLowerCaseASCII verifier
                (signedCommit "0xabc@eip155:1" 99 "did:example:2") "c2" 2%positive
                heapSigned stateSigned (linkProof "0xabc@eip155:1" 99 "did:example:2")
                signed_state eq_refl) as [Hiff _].
    apply Hiff. split; [discriminate|]. right. split; [discriminate|].
    exists {| next_content := Some "did:example:1";
              next_metadata := Some (withLastUpdate hdr 100) |},
      (withLastUpdate hdr 100), 100.
    repeat (split; [reflexivity|]). simpl. lia.
  - destruct (stale_proof_rejected_exactly toLowerCaseASCII verifier
                (signedCommit "0xabc@eip155:1" 100 "did:example:2") "c2" 2%positive
                heapSigned stateSigned (linkProof "0xabc@eip155:1" 100 "did:example:2")
                signed_state eq_refl) as (_ & _ & Heq & _).
    apply (Heq {| next_content := Some "did:example:1";
                  next_metadata := Some (withLastUpdate hdr 100) |}
             (withLastUpdate hdr 100)); [discriminate|reflexivity..].
  - destruct (stale_proof_rejected_exactly toLowerCaseASCII verifier
                (signedCommit "0xabc@eip155:1" 150 "did:example:2") "c3" 3%positive
                heapAnchored stateAnchored (linkProof "0xabc@eip155:1" 150 "did:example:2")
                anchored_state eq_refl) as (_ & Heq & _).
    apply (Heq (proofAt 150)); reflexivity.
  - destruct (stale_proof_rejected_exactly toLowerCaseASCII verifier
                (signedCommit "0xabc@eip155:1" 150 "did:example:2") "c3" 3%positive
                heapAnchored stateAnchored (linkProof "0xabc@eip155:1" 150 "did:example:2")
                anchored_state eq_refl) as (_ & _ & _ & Hok).
    apply (Hok (proofAt 150) (logSigned ++ [{| entry_cid := "c2"; entry_type := CommitType.ANCHOR |}])
             "0xabc@eip155:1" ["0xabc@eip155:1"] "0xabc@eip155:1");
      reflexivity.
Defined.

(** A signed commit by another account fails on the genesis sample state and
    leaves the heap as it was. *)
Lemma failure_leaves_state_unmodified_witness :
  applyCommit typeId toLowerCaseASCII verifier (signedCommit "0xdef@eip155:1" 100 "did:example:1")
    "c1" contextDown (Some 1%positive) heapGenesis
  = Some (Abrupt ControllerMismatchError, heapGenesis)
  ∧ states heapGenesis !! 1%positive = Some stateGenesis
  ∧ arrays heapGenesis !! log stateGenesis = arrays heapGenesis !! log stateGenesis.
Proof.
  assert (applyCommit typeId toLowerCaseASCII verifier (signedCommit "0xdef@eip155:1" 100 "did:example:1")
            "c1" contextDown (Some 1%positive) heapGenesis
          = Some (Abrupt ControllerMismatchError, heapGenesis)) as Hrun
    by (vm_compute; reflexivity).
  split; [exact Hrun|].
  destruct (failure_leaves_state_unmodified _ _ _ _ _ _ _ _ _ _ Hrun) as [_ Hprior].
  apply (Hprior 1%positive stateGenesis); [reflexivity|exact genesis_state].
Defined.

(** The signed commit of the end-to-end scenario on the genesis sample
    state. *)
Lemma signed_commit_result_witness :
  ∃ r' h' st',
    _applySigned toLowerCaseASCII verifier (signedCommit "0xABC@eip155:1" 100 "did:example:1")
      "c1" 1%positive heapGenesis = Some (Normal r', h')
    ∧ states h' !! r' = Some st'
    ∧ arrays h' !! log st'
      = Some (logGenesis ++ [{| entry_cid := "c1"; entry_type := CommitType.SIGNED |}])
    ∧ signature st' = SignatureStatus.SIGNED
    ∧ anchorStatus st' = AnchorStatus.NOT_REQUESTED
    ∧ next st'
      = Some {| next_content := Some "did:example:1";
                next_metadata :=
                  Some {| controllers := Some ["0xabc@eip155:1"];
                          lastUpdate := Some 100;
                          others := [("family", "links")] |} |}
    ∧ content st' = None.
Proof.
  apply (signed_commit_result toLowerCaseASCII verifier
           (signedCommit "0xABC@eip155:1" 100 "did:example:1") "c1" 1%positive
           heapGenesis stateGenesis logGenesis
           (linkProof "0xABC@eip155:1" 100 "did:example:1")
           "0xABC@eip155:1" ["0xabc@eip155:1"] "0xabc@eip155:1");
    reflexivity.
Defined.

(** The claim as stated fails when the pending content is the empty string:
    anchoring the sample state whose pending update has the DID [""] keeps
    the committed content ["did:example:1"]. *)
Lemma anchor_keeps_content_on_empty_pending : ¬ anchorPromotesPresentContent.
Proof.
  intros Hclaim.
  specialize (Hclaim (contextWith 170) anchorCommit "c4" 4%positive heapCleared
                stateCleared (Some (proofAt 170)) 5%positive heapClearedAnchored
                stateClearedAnchored cleared_state eq_refl cleared_anchor_run
                cleared_anchored_state).
  simpl in Hclaim. discriminate Hclaim.
Qed.

(** The anchor commit of the end-to-end scenario on the signed sample state
    commits the pending DID; anchoring the genesis sample state, which has no
    pending content, keeps the (null) committed content. *)
Lemma anchor_commit_result_witness :
  (∃ r' h' st',
     _applyAnchor (contextWith 150) anchorCommit "c2" 2%positive heapSigned
       = Some (Normal r', h')
     ∧ states h' !! r' = Some st'
     ∧ arrays h' !! log st'
       = Some (logSigned ++ [{| entry_cid := "c2"; entry_type := CommitType.ANCHOR |}])
     ∧ content st' = Some "did:example:1"
     ∧ next st' = None
     ∧ anchorScheduledFor st' = None
     ∧ anchorStatus st' = AnchorStatus.ANCHORED
     ∧ anchorProof st' = Some (proofAt 150))
  ∧ (∃ r' h' st',
       _applyAnchor (contextWith 150) anchorCommit "c1" 1%positive heapGenesis
         = Some (Normal r', h')
       ∧ states h' !! r' = Some st'
       ∧ content st' = None
       ∧ anchorStatus st' = AnchorStatus.ANCHORED).
Proof.
  split.
  - destruct (anchor_commit_result (contextWith 150) anchorCommit "c2" 2%positive
                heapSigned stateSigned logSigned (Some (proofAt 150))
                signed_state signed_log eq_refl)
      as (r' & h' & st' & Hrun & Hst' & Hlog & Hpromote & _ & Hnext & Hsched
          & Hstatus & Hproof).
    exists r', h', st'. repeat (split; [assumption|]).
    split; [|by repeat split].
    apply Hpromote; [reflexivity|discriminate].
  - destruct (anchor_commit_result (contextWith 150) anchorCommit "c1" 1%positive
                heapGenesis stateGenesis logGenesis (Some (proofAt 150))
                genesis_state genesis_log eq_refl)
      as (r' & h' & st' & Hrun & Hst' & _ & _ & Hkeep & _ & _ & Hstatus & _).
    exists r', h', st'. repeat (split; [assumption|]).
    split; [|assumption]. apply Hkeep. left. reflexivity.
Defined.

(** The three outcomes of a genesis application: a commit with data, a
    header with two controllers, and the genesis commit of the scenario. *)
Lemma genesis_application_witness :
  _applyGenesis typeId (signedCommit "0xabc@eip155:1" 100 "did:example:1") "c0" empty_heap
    = Some (Abrupt GenesisDataError, empty_heap)
  ∧ (∃ e, InvalidGenesisError e
          ∧ _applyGenesis typeId
              {| header := Some twoControllers; data := None; proof := None |}
              "c0" empty_heap = Some (Abrupt e, empty_heap))
  ∧ (∃ r' l h',
       _applyGenesis typeId genesisCommit "c0" empty_heap = Some (Normal r', h')
       ∧ states empty_heap !! r' = None
       ∧ arrays empty_heap !! l = None
       ∧ states h' !! r'
         = Some {| type := typeId;
                   content := None;
                   next := Some {| next_content := None; next_metadata := None |};
                   metadata := hdr;
                   signature := SignatureStatus.GENESIS;
                   anchorStatus := AnchorStatus.NOT_REQUESTED;
                   anchorScheduledFor := None;
                   anchorProof := None;
                   log := l |}
       ∧ arrays h' !! l = Some [{| entry_cid := "c0"; entry_type := CommitType.GENESIS |}]).
Proof.
  split; [|split].
  - apply (genesis_application typeId
             (signedCommit "0xabc@eip155:1" 100 "did:example:1") "c0" empty_heap).
    simpl. eexists. reflexivity.
  - apply (proj1 (proj2 (genesis_application typeId
             {| header := Some twoControllers; data := None; proof := None |}
             "c0" empty_heap)) twoControllers).
    + reflexivity.
    + intros c. simpl. discriminate.
  - apply (proj1 (proj2 (proj2 (genesis_application typeId genesisCommit "c0" empty_heap)))
             hdr "0xabc@eip155:1"); reflexivity.
Defined.

(** On the genesis sample state (controller [0xabc@eip155:1]): a proof naming
    [0xABC@eip155:1] in its legacy [address] property passes the controller
    check and one naming [0xdef@eip155:1] there fails it; the account
    [0xABC@eip155:1@junk] passes it, its third segment being dropped; the
    account [0xabc] without chain qualifier fails it.  On a state whose
    controller is [0xabc@] the account [0xABC] passes it. *)
Lemma controller_mismatch_exactly_witness :
  (¬ ∃ h', _applySigned toLowerCaseASCII verifier
             (legacyCommit "0xABC@eip155:1" 100 "did:example:1")
             "c1" 1%positive heapGenesis = Some (Abrupt ControllerMismatchError, h'))
  ∧ (∃ h', _applySigned toLowerCaseASCII verifier
             (legacyCommit "0xdef@eip155:1" 100 "did:example:1")
             "c1" 1%positive heapGenesis = Some (Abrupt ControllerMismatchError, h'))
  ∧ (¬ ∃ h', _applySigned toLowerCaseASCII verifier
               (signedCommit "0xABC@eip155:1@junk" 100 "did:example:1")
               "c1" 1%positive heapGenesis = Some (Abrupt ControllerMismatchError, h'))
  ∧ (∃ h', _applySigned toLowerCaseASCII verifier
             (signedCommit "0xabc" 100 "did:example:1")
             "c1" 1%positive heapGenesis = Some (Abrupt ControllerMismatchError, h'))
  ∧ (¬ ∃ h', _applySigned toLowerCaseASCII verifier
               (signedCommit "0xABC" 100 "did:example:1")
               "c1" 1%positive heapEmptyChain
             = Some (Abrupt ControllerMismatchError, h')).
Proof.
  split; [|split; [|split; [|split]]].
  - destruct (controller_mismatch_exactly toLowerCaseASCII verifier
                (legacyCommit "0xABC@eip155:1" 100 "did:example:1") "c1" 1%positive
                heapGenesis stateGenesis (legacyProof "0xABC@eip155:1" 100 "did:example:1")
                "0xABC@eip155:1" ["0xabc@eip155:1"] "0xabc@eip155:1"
                genesis_state eq_refl eq_refl
                (or_intror (conj (or_introl eq_refl) eq_refl)) eq_refl eq_refl)
      as (_ & _ & _ & Hexample).
    apply Hexample; reflexivity.
  - destruct (controller_mismatch_exactly toLowerCaseASCII verifier
                (legacyCommit "0xdef@eip155:1" 100 "did:example:1") "c1" 1%positive
                heapGenesis stateGenesis (legacyProof "0xdef@eip155:1" 100 "did:example:1")
                "0xdef@eip155:1" ["0xabc@eip155:1"] "0xabc@eip155:1"
                genesis_state eq_refl eq_refl
                (or_intror (conj (or_introl eq_refl) eq_refl)) eq_refl eq_refl)
      as (_ & Hsegments & _).
    apply (Hsegments "0xdef" "eip155:1" ""); [reflexivity..| |].
    + left. reflexivity.
    + simpl. discriminate.
  - destruct (controller_mismatch_exactly toLowerCaseASCII verifier
                (signedCommit "0xABC@eip155:1@junk" 100 "did:example:1") "c1"
                1%positive heapGenesis stateGenesis
                (linkProof "0xABC@eip155:1@junk" 100 "did:example:1")
                "0xABC@eip155:1@junk" ["0xabc@eip155:1"] "0xabc@eip155:1"
                genesis_state eq_refl eq_refl)
      as (_ & Hsegments & _); [| reflexivity | reflexivity |].
    + left. split; [reflexivity|discriminate].
    + intros Hfail.
      apply (Hsegments "0xABC" "eip155:1" "@junk") in Hfail; [|reflexivity..|].
      * apply Hfail. reflexivity.
      * right. exists "junk". reflexivity.
  - destruct (controller_mismatch_exactly toLowerCaseASCII verifier
                (signedCommit "0xabc" 100 "did:example:1") "c1"
                1%positive heapGenesis stateGenesis
                (linkProof "0xabc" 100 "did:example:1")
                "0xabc" ["0xabc@eip155:1"] "0xabc@eip155:1"
                genesis_state eq_refl eq_refl)
      as (_ & _ & Hbare & _); [| reflexivity | reflexivity |].
    + left. split; [reflexivity|discriminate].
    + apply Hbare; [reflexivity|]. simpl. discriminate.
  - destruct (controller_mismatch_exactly toLowerCaseASCII verifier
                (signedCommit "0xABC" 100 "did:example:1") "c1"
                1%positive heapEmptyChain stateEmptyChain
                (linkProof "0xABC" 100 "did:example:1")
                "0xABC" ["0xabc@"] "0xabc@"
                eq_refl eq_refl eq_refl)
      as (_ & _ & Hbare & _); [| reflexivity | reflexivity |].
    + left. split; [reflexivity|discriminate].
    + intros Hfail. apply Hbare in Hfail; [|reflexivity]. apply Hfail. reflexivity.
Defined.

(** On the signed sample state the anchor commit fails with the store's
    error when the lookup times out and succeeds when the store answers. *)
Lemma anchor_fails_only_on_fetch_witness :
  (∃ h', _applyAnchor contextDown anchorCommit "c2" 2%positive heapSigned
         = Some (Abrupt (Rejection "request timed out"), h'))
  ∧ (∃ r' h', _applyAnchor (contextWith 150) anchorCommit "c2" 2%positive heapSigned
              = Some (Normal r', h')).
Proof.
  split.
  - destruct (anchor_fails_only_on_fetch contextDown anchorCommit "c2" 2%positive
                heapSigned stateSigned logSigned signed_state signed_log)
      as (_ & Hfail & _).
    apply Hfail. reflexivity.
  - destruct (anchor_fails_only_on_fetch (contextWith 150) anchorCommit "c2" 2%positive
                heapSigned stateSigned logSigned signed_state signed_log)
      as (_ & _ & Hok).
    apply (Hok (Some (proofAt 150))). reflexivity.
Defined.

(** The end-to-end scenario, genesis then signed then anchor, leaves a log of
    three entries in that order; the anchor step appends its entry to the
    two-entry log, and a failed application leaves that log as it is. *)
Lemma log_is_append_only_witness :
  (∃ st entries,
     states heapAnchored !! 3%positive = Some st
     ∧ arrays heapAnchored !! log st = Some entries
     ∧ entries = [{| entry_cid := "c0"; entry_type := CommitType.GENESIS |};
                  {| entry_cid := "c1"; entry_type := CommitType.SIGNED |};
                  {| entry_cid := "c2"; entry_type := CommitType.ANCHOR |}]
     ∧ length entries = 3%nat)
  ∧ (∃ st', states heapAnchored !! 3%positive = Some st'
            ∧ arrays heapAnchored !! log st'
              = Some (logSigned ++ [{| entry_cid := "c2"; entry_type := CommitType.ANCHOR |}]))
  ∧ (∃ more, arrays heapSigned !! 1%positive = Some (logSigned ++ more)).
Proof.
  destruct (log_is_append_only typeId toLowerCaseASCII verifier (contextWith 150))
    as (Hall & Hstep & Hkeep).
  split; [|split].
  - apply (Hall [(genesisCommit, "c0");
                 (signedCommit "0xabc@eip155:1" 100 "did:example:1", "c1");
                 (anchorCommit, "c2")]
             empty_heap 3%positive heapAnchored).
    vm_compute. reflexivity.
  - apply (Hstep anchorCommit "c2" 2%positive heapSigned stateSigned logSigned
             3%positive heapAnchored signed_state signed_log anchor_run).
  - apply (Hkeep (signedCommit "0xabc@eip155:1" 99 "did:example:2") "c2"
             (Some 2%positive) heapSigned (Abrupt StaleProofError) heapSigned
             1%positive logSigned).
    + intros r [= <-]. exists stateSigned. exact signed_state.
    + vm_compute. reflexivity.
    + exact signed_log.
Defined.

(** The claim as stated fails on a commit that carries both a payload and an
    anchor-proof reference: it has none of the three shapes, and applied to
    the genesis sample state it is taken for an anchor commit and applied. *)
Lemma hybrid_commit_is_applied : ¬ rejectsUnrecognizedShapes typeId toLowerCaseASCII verifier.
Proof.
  intros Hclaim.
  destruct (Hclaim (contextWith 150) hybridCommit "c1" (Some 1%positive) heapGenesis)
    as (e & h' & Hrun).
  - intros r [= <-]. exists stateGenesis. split; [exact genesis_state|].
    exists logGenesis. exact genesis_log.
  - intros [(Hh & _)|[(Hp & _)|(_ & Hd)]].
    + destruct Hh as [x Hx]. discriminate Hx.
    + discriminate Hp.
    + discriminate Hd.
  - vm_compute in Hrun. discriminate Hrun.
Qed.

(** A commit with nothing in it is rejected, with and without a prior
    state, and so is the commit with payload and proof reference without a
    prior state; applied to the genesis sample state that commit is rejected
    when the store is down and applied as an anchor commit when the store
    answers. *)
Lemma unrecognized_commit_rejected_unless_anchor_dispatch_witness :
  (∃ e, applyCommit typeId toLowerCaseASCII verifier emptyCommit "c1" contextDown
          None empty_heap = Some (Abrupt e, empty_heap))
  ∧ (∃ e, applyCommit typeId toLowerCaseASCII verifier hybridCommit "c1"
            (contextWith 150) None empty_heap = Some (Abrupt e, empty_heap))
  ∧ (∃ e, (e = InvalidProofError ∨ ∃ m, e = ProofValidationError m)
          ∧ applyCommit typeId toLowerCaseASCII verifier emptyCommit "c1" contextDown
              (Some 1%positive) heapGenesis = Some (Abrupt e, heapGenesis))
  ∧ applyCommit typeId toLowerCaseASCII verifier hybridCommit "c1" contextDown
      (Some 1%positive) heapGenesis
    = Some (Abrupt (Rejection "request timed out"), heapGenesis)
  ∧ (∃ r' h' st',
       applyCommit typeId toLowerCaseASCII verifier hybridCommit "c1" (contextWith 150)
         (Some 1%positive) heapGenesis = Some (Normal r', h')
       ∧ states h' !! r' = Some st'
       ∧ anchorStatus st' = AnchorStatus.ANCHORED
       ∧ arrays h' !! log st'
         = Some (logGenesis ++ [{| entry_cid := "c1"; entry_type := CommitType.ANCHOR |}])).
Proof.
  assert (¬ recognizedShape verifier emptyCommit) as Hempty.
  { intros [(Hh & _)|[(_ & p & Hp)|(Hp & _)]].
    - destruct Hh as [x Hx]. discriminate Hx.
    - discriminate Hp.
    - destruct Hp as [x Hx]. discriminate Hx. }
  assert (¬ recognizedShape verifier hybridCommit) as Hhybrid.
  { intros [(Hh & _)|[(Hp & _)|(_ & Hd)]].
    - destruct Hh as [x Hx]. discriminate Hx.
    - discriminate Hp.
    - discriminate Hd. }
  split; [|split; [|split; [|split]]].
  - apply (proj1 (unrecognized_commit_rejected_unless_anchor_dispatch typeId
                    toLowerCaseASCII verifier contextDown emptyCommit "c1" None
                    empty_heap) Hempty).
    left. reflexivity.
  - apply (proj1 (unrecognized_commit_rejected_unless_anchor_dispatch typeId
                    toLowerCaseASCII verifier (contextWith 150) hybridCommit "c1" None
                    empty_heap) Hhybrid).
    left. reflexivity.
  - apply (proj1 (proj2 (unrecognized_commit_rejected_unless_anchor_dispatch typeId
                    toLowerCaseASCII verifier contextDown emptyCommit "c1"
                    (Some 1%positive) heapGenesis))).
    + eexists. reflexivity.
    + reflexivity.
    + intros [p Hp]. discriminate Hp.
  - apply (proj2 (proj2 (unrecognized_commit_rejected_unless_anchor_dispatch typeId
                    toLowerCaseASCII verifier contextDown hybridCommit "c1"
                    (Some 1%positive) heapGenesis))
             1%positive stateGenesis logGenesis eq_refl
             (ex_intro _ _ eq_refl) genesis_state genesis_log).
    reflexivity.
  - apply (proj2 (proj2 (unrecognized_commit_rejected_unless_anchor_dispatch typeId
                    toLowerCaseASCII verifier (contextWith 150) hybridCommit "c1"
                    (Some 1%positive) heapGenesis))
             1%positive stateGenesis logGenesis eq_refl
             (ex_intro _ _ eq_refl) genesis_state genesis_log)
      with (v := Some (proofAt 150)).
    reflexivity.
Defined.

(** The claim as stated fails when the proof reference of an anchor commit
    resolves to [null]: after genesis, the signed commit and such an anchor
    commit the state is SIGNED and ANCHORED and has no anchor proof. *)
Lemma null_anchor_proof_is_reachable :
  ¬ stalenessFieldsAlwaysDefined typeId toLowerCaseASCII verifier.
Proof.
  intros Hclaim.
  destruct (Hclaim heapNullAnchored 3%positive) as (st & Hst & Hanchored & _).
  - apply (reachable_step typeId toLowerCaseASCII verifier anchorCommit "c2" contextNull
             heapSigned 2%positive heapNullAnchored 3%positive);
      [|vm_compute; reflexivity].
    apply (reachable_step typeId toLowerCaseASCII verifier
             (signedCommit "0xabc@eip155:1" 100 "did:example:1") "c1" contextDown
             heapGenesis 1%positive heapSigned 2%positive); [|exact signed_run].
    apply (reachable_genesis typeId toLowerCaseASCII verifier genesisCommit "c0"
             contextDown empty_heap heapGenesis 1%positive).
    exact genesis_run.
  - assert (Some st = Some stateNullAnchored) as [= ->]
      by (rewrite <- Hst; vm_compute; reflexivity).
    destruct Hanchored as [ap Hap]; [discriminate|reflexivity|].
    discriminate Hap.
Qed.

(** The anchored state of the end-to-end scenario is reachable: its anchor
    proof is the one the store returned and the timestamp check evaluates to
    a boolean on it. *)
Lemma reachable_staleness_fields_defined_witness :
  ∃ st, states heapAnchored !! 3%positive = Some st
        ∧ (signature st ≠ SignatureStatus.GENESIS →
           anchorStatus st ≠ AnchorStatus.ANCHORED →
             ∃ commit cid context h0 r0 p n m,
               reachable typeId toLowerCaseASCII verifier h0 r0
               ∧ applyCommit typeId toLowerCaseASCII verifier commit cid context
                   (Some r0) h0 = Some (Normal 3%positive, heapAnchored)
               ∧ verifier (data commit) = inr (Some p)
               ∧ next st = Some n ∧ next_metadata n = Some m
               ∧ lastUpdate m = Some (timestamp p))
        ∧ (anchorStatus st = AnchorStatus.ANCHORED →
             ∃ commit cid context h0 r0,
               reachable typeId toLowerCaseASCII verifier h0 r0
               ∧ applyCommit typeId toLowerCaseASCII verifier commit cid context
                   (Some r0) h0 = Some (Normal 3%positive, heapAnchored)
               ∧ ipfs_dag_get context (proof commit) IPFS_GET_TIMEOUT
                 = inr (anchorProof st))
        ∧ (∀ p, proofTooOld st p = inl TypeError
                ↔ signature st ≠ SignatureStatus.GENESIS
                  ∧ anchorStatus st = AnchorStatus.ANCHORED
                  ∧ anchorProof st = None)
        ∧ (∀ p, signature st = SignatureStatus.GENESIS
                ∨ anchorStatus st ≠ AnchorStatus.ANCHORED
                ∨ is_Some (anchorProof st) →
                ∃ b, proofTooOld st p = inr b).
Proof.
  apply (reachable_staleness_fields_defined typeId toLowerCaseASCII verifier
           heapAnchored 3%positive).
  apply (reachable_step typeId toLowerCaseASCII verifier anchorCommit "c2"
           (contextWith 150) heapSigned 2%positive heapAnchored 3%positive);
    [|exact anchor_run].
  apply (reachable_step typeId toLowerCaseASCII verifier
           (signedCommit "0xabc@eip155:1" 100 "did:example:1") "c1" contextDown
           heapGenesis 1%positive heapSigned 2%positive); [|exact signed_run].
  apply (reachable_genesis typeId toLowerCaseASCII verifier genesisCommit "c0"
           contextDown empty_heap heapGenesis 1%positive).
  exact genesis_run.
Defined.

(** * Further instances on the sample data *)

Module MoreSampleRuns.

Example signed_run_direct :
  _applySigned toLowerCaseASCII verifier (signedCommit "0xabc@eip155:1" 100 "did:example:1")
    "c1" 1%positive heapGenesis
  = Some (Normal 2%positive, heapSigned).
Proof. vm_compute. reflexivity. Qed.

Example anchor_run_direct :
  _applyAnchor (contextWith 150) anchorCommit "c2" 2%positive heapSigned
  = Some (Normal 3%positive, heapAnchored).
Proof. vm_compute. reflexivity. Qed.

Example anchored_reachable : reachable typeId toLowerCaseASCII verifier heapAnchored 3%positive.
Proof.
  apply (reachable_step typeId toLowerCaseASCII verifier anchorCommit "c2" (contextWith 150)
           heapSigned 2%positive heapAnchored 3%positive); [|exact anchor_run].
  apply (reachable_step typeId toLowerCaseASCII verifier
           (signedCommit "0xabc@eip155:1" 100 "did:example:1") "c1" contextDown
           heapGenesis 1%positive heapSigned 2%positive); [|exact signed_run].
  apply (reachable_genesis typeId toLowerCaseASCII verifier genesisCommit "c0" contextDown
           empty_heap heapGenesis 1%positive).
  exact genesis_run.
Qed.

Example genesis_anchored_state :
  states heapGenesisAnchored !! 2%positive = Some stateGenesisAnchored.
Proof. vm_compute. reflexivity. Qed.

Example genesis_anchored_log :
  arrays heapGenesisAnchored !! 1%positive = Some logGenesisAnchored.
Proof. vm_compute. reflexivity. Qed.

Example bare_state : states heapBare !! 1%positive = Some stateBare.
Proof. vm_compute. reflexivity. Qed.

Example prior_state_after_anchor :
  states heapAnchored !! 2%positive = Some (delete_next_and_schedule stateSigned).
Proof. vm_compute. reflexivity. Qed.

End MoreSampleRuns.

Import MoreSampleRuns.

(** The anchor of the end-to-end scenario took [next] off state 2, the state
    it was applied to. *)
Lemma anchor_deletes_from_prior_state_witness :
  3%positive ≠ 2%positive
  ∧ ∃ prior st',
      states heapAnchored !! 2%positive = Some prior
      ∧ states heapAnchored !! 3%positive = Some st'
      ∧ next prior = None
      ∧ anchorScheduledFor prior = None
      ∧ content prior = content stateSigned
      ∧ signature prior = signature stateSigned
      ∧ anchorStatus prior = anchorStatus stateSigned
      ∧ anchorProof prior = anchorProof stateSigned
      ∧ metadata prior = metadata stateSigned
      ∧ log prior = log stateSigned
      ∧ log st' = log stateSigned.
Proof.
  exact (anchor_deletes_from_prior_state (contextWith 150) anchorCommit "c2" 2%positive
           heapSigned stateSigned 3%positive heapAnchored signed_state anchor_run_direct).
Defined.

(** The signed commit of the scenario left state 1 as it was and put its
    entry into the log state 1 refers to. *)
Lemma signed_shares_log_with_prior_state_witness :
  2%positive ≠ 1%positive
  ∧ states heapSigned !! 1%positive = Some stateGenesis
  ∧ arrays heapSigned !! log stateGenesis
    = Some (logGenesis ++ [{| entry_cid := "c1"; entry_type := CommitType.SIGNED |}])
  ∧ ∃ st', states heapSigned !! 2%positive = Some st' ∧ log st' = log stateGenesis.
Proof.
  exact (signed_shares_log_with_prior_state toLowerCaseASCII verifier
           (signedCommit "0xabc@eip155:1" 100 "did:example:1") "c1" 1%positive
           heapGenesis stateGenesis logGenesis 2%positive heapSigned
           genesis_state genesis_log signed_run_direct).
Defined.

(** The anchor of the scenario returned the new reference 3 and left state 1
    as it was. *)
Lemma applyCommit_frame_witness :
  states heapSigned !! 3%positive = None
  ∧ is_Some (states heapAnchored !! 3%positive)
  ∧ states heapAnchored !! 1%positive = Some stateGenesis.
Proof.
  destruct (applyCommit_frame typeId toLowerCaseASCII verifier anchorCommit "c2" (contextWith 150)
              (Some 2%positive) heapSigned 3%positive heapAnchored anchor_run)
    as (Hfresh & Hnew & Hstates & _).
  split; [exact Hfresh|]. split; [exact Hnew|].
  apply Hstates; [discriminate|]. vm_compute. reflexivity.
Defined.

(** The anchored state of the scenario has the one controller of the genesis
    header. *)
Lemma reachable_has_one_controller_witness :
  ∃ st c,
    states heapAnchored !! 3%positive = Some st
    ∧ type st = typeId
    ∧ controllers (metadata st) = Some [c]
    ∧ ∀ n m, next st = Some n → next_metadata n = Some m →
        controllers m = Some [c].
Proof.
  exact (reachable_has_one_controller typeId toLowerCaseASCII verifier heapAnchored 3%positive
           anchored_reachable).
Defined.

Lemma reachable_anchor_status_witness :
  ∃ st es,
    states heapAnchored !! 3%positive = Some st
    ∧ arrays heapAnchored !! log st = Some es
    ∧ (anchorStatus st = AnchorStatus.ANCHORED
       ∨ anchorStatus st = AnchorStatus.NOT_REQUESTED)
    ∧ (anchorStatus st = AnchorStatus.ANCHORED ↔ next st = None)
    ∧ (anchorStatus st = AnchorStatus.ANCHORED
       ↔ entry_type <$> last es = Some CommitType.ANCHOR)
    ∧ anchorScheduledFor st = None.
Proof.
  exact (reachable_anchor_status typeId toLowerCaseASCII verifier heapAnchored 3%positive
           anchored_reachable).
Defined.

Lemma reachable_log_shape_witness :
  ∃ st cid0 rest,
    states heapAnchored !! 3%positive = Some st
    ∧ arrays heapAnchored !! log st
      = Some ({| entry_cid := cid0; entry_type := CommitType.GENESIS |} :: rest)
    ∧ Forall (λ e, entry_type e ≠ CommitType.GENESIS) rest
    ∧ (signature st = SignatureStatus.SIGNED
       ↔ Exists (λ e, entry_type e = CommitType.SIGNED) rest)
    ∧ (signature st = SignatureStatus.GENESIS →
         content st = None ∧ (n ← next st; next_content n) = None).
Proof.
  exact (reachable_log_shape typeId toLowerCaseASCII verifier heapAnchored 3%positive
           anchored_reachable).
Defined.

(** The signed commit of the scenario is accepted a second time by the state
    it returned. *)
Lemma signed_commit_replay_accepted_witness :
  ∃ r'' h'' st'',
    _applySigned toLowerCaseASCII verifier (signedCommit "0xabc@eip155:1" 100 "did:example:1")
      "c1-again" 2%positive heapSigned = Some (Normal r'', h'')
    ∧ states h'' !! r'' = Some st''
    ∧ arrays h'' !! log st''
      = Some (logGenesis ++ [{| entry_cid := "c1"; entry_type := CommitType.SIGNED |};
                             {| entry_cid := "c1-again";
                                entry_type := CommitType.SIGNED |}]).
Proof.
  exact (signed_commit_replay_accepted toLowerCaseASCII verifier
           (signedCommit "0xabc@eip155:1" 100 "did:example:1") "c1" "c1-again"
           1%positive heapGenesis stateGenesis logGenesis 2%positive heapSigned
           genesis_state genesis_log signed_run_direct).
Defined.

(** After the signed commit at time 100 a proof at time 99 is stale. *)
Lemma older_proof_after_signed_is_stale_witness :
  _applySigned toLowerCaseASCII verifier (signedCommit "0xabc@eip155:1" 99 "did:example:2")
    "c2" 2%positive heapSigned
  = Some (Abrupt StaleProofError, heapSigned).
Proof.
  apply (older_proof_after_signed_is_stale toLowerCaseASCII verifier
           (signedCommit "0xabc@eip155:1" 100 "did:example:1") "c1"
           (signedCommit "0xabc@eip155:1" 99 "did:example:2") "c2"
           1%positive heapGenesis
           (linkProof "0xabc@eip155:1" 100 "did:example:1")
           (linkProof "0xabc@eip155:1" 99 "did:example:2")
           2%positive heapSigned signed_run_direct eq_refl eq_refl).
  simpl. lia.
Defined.

(** The signed commit and the anchor of the scenario, one after the other. *)
Lemma signed_then_anchor_witness :
  ∃ r'' h'' st'',
    _applyAnchor (contextWith 150) anchorCommit "c2" 2%positive heapSigned
      = Some (Normal r'', h'')
    ∧ states h'' !! r'' = Some st''
    ∧ content st'' = Some "did:example:1"
    ∧ signature st'' = SignatureStatus.SIGNED
    ∧ anchorStatus st'' = AnchorStatus.ANCHORED
    ∧ anchorProof st'' = Some (proofAt 150)
    ∧ next st'' = None
    ∧ arrays h'' !! log st''
      = Some (logGenesis ++ [{| entry_cid := "c1"; entry_type := CommitType.SIGNED |};
                             {| entry_cid := "c2"; entry_type := CommitType.ANCHOR |}]).
Proof.
  destruct (signed_then_anchor toLowerCaseASCII verifier
              (signedCommit "0xabc@eip155:1" 100 "did:example:1") "c1"
              anchorCommit "c2" (contextWith 150) 1%positive heapGenesis
              stateGenesis logGenesis
              (linkProof "0xabc@eip155:1" 100 "did:example:1") (Some (proofAt 150))
              2%positive heapSigned
              genesis_state genesis_log signed_run_direct eq_refl eq_refl)
    as (r'' & h'' & st'' & Hrun & Hst & Hdid & _ & Hrest).
  exists r'', h'', st''. split; [exact Hrun|]. split; [exact Hst|].
  split; [|exact Hrest]. apply Hdid. discriminate.
Defined.

(** After genesis and an anchor at block time 150 a first signed commit at
    time 100 is applied. *)
Lemma first_signed_commit_is_never_stale_witness :
  ∃ r' h' st',
    _applySigned toLowerCaseASCII verifier (signedCommit "0xabc@eip155:1" 100 "did:example:1")
      "c2" 2%positive heapGenesisAnchored = Some (Normal r', h')
    ∧ states h' !! r' = Some st'
    ∧ signature st' = SignatureStatus.SIGNED
    ∧ (n ← next st'; m ← next_metadata n; lastUpdate m) = Some 100.
Proof.
  apply (first_signed_commit_is_never_stale toLowerCaseASCII verifier
           (signedCommit "0xabc@eip155:1" 100 "did:example:1") "c2" 2%positive
           heapGenesisAnchored stateGenesisAnchored logGenesisAnchored
           (linkProof "0xabc@eip155:1" 100 "did:example:1")
           "0xabc@eip155:1" ["0xabc@eip155:1"] "0xabc@eip155:1"
           genesis_anchored_state genesis_anchored_log);
    reflexivity.
Defined.

(** A signed commit applied to state 2 of the scenario after the anchor took
    its [next], a signed commit without account on the genesis state, and
    signed commits on the two irregular states. *)
Lemma signed_commit_type_errors_witness :
  _applySigned toLowerCaseASCII verifier (signedCommit "0xabc@eip155:1" 200 "did:example:2")
    "c3" 2%positive heapAnchored = Some (Abrupt TypeError, heapAnchored)
  ∧ _applySigned toLowerCaseASCII verifier anonymousCommit "c1" 1%positive heapGenesis
    = Some (Abrupt TypeError, heapGenesis)
  ∧ _applySigned toLowerCaseASCII verifier (signedCommit "0xabc@eip155:1" 200 "did:example:2")
      "c1" 1%positive heapOdd = Some (Abrupt TypeError, heapOdd)
  ∧ _applySigned toLowerCaseASCII verifier (signedCommit "0xabc@eip155:1" 200 "did:example:2")
      "c1" 2%positive heapOdd = Some (Abrupt TypeError, heapOdd).
Proof.
  split; [|split; [|split]].
  - apply (proj1 (proj2 (signed_commit_type_errors toLowerCaseASCII verifier
             (signedCommit "0xabc@eip155:1" 200 "did:example:2") "c3" 2%positive
             heapAnchored (delete_next_and_schedule stateSigned)
             (linkProof "0xabc@eip155:1" 200 "did:example:2")
             prior_state_after_anchor eq_refl)));
      [discriminate|discriminate|left; reflexivity].
  - apply (proj1 (proj2 (proj2 (signed_commit_type_errors toLowerCaseASCII verifier
             anonymousCommit "c1" 1%positive heapGenesis stateGenesis
             {| account := None; address := None; timestamp := 100;
                did := "did:example:1" |}
             genesis_state eq_refl))));
      [reflexivity|left; reflexivity|reflexivity].
  - apply (proj1 (signed_commit_type_errors toLowerCaseASCII verifier
             (signedCommit "0xabc@eip155:1" 200 "did:example:2") "c1" 1%positive
             heapOdd stateNoProof (linkProof "0xabc@eip155:1" 200 "did:example:2")
             eq_refl eq_refl));
      [discriminate|reflexivity|reflexivity].
  - apply (proj2 (proj2 (proj2 (signed_commit_type_errors toLowerCaseASCII verifier
             (signedCommit "0xabc@eip155:1" 200 "did:example:2") "c1" 2%positive
             heapOdd stateNoControllers (linkProof "0xabc@eip155:1" 200 "did:example:2")
             eq_refl eq_refl))));
      [reflexivity|eexists; reflexivity|right; reflexivity].
Defined.

(** On the state whose controller is ["0xabc"], without chain qualifier, the
    proof of the account ["0xabc"] does not match. *)
Lemma controller_needs_one_separator_witness :
  _applySigned toLowerCaseASCII verifier (signedCommit "0xabc" 100 "did:example:1") "c1" 1%positive heapBare
  = Some (Abrupt ControllerMismatchError, heapBare).
Proof.
  apply (controller_needs_one_separator verifier
           (signedCommit "0xabc" 100 "did:example:1") "c1" 1%positive heapBare
           stateBare (linkProof "0xabc" 100 "did:example:1") "0xabc" ["0xabc"] "0xabc"
           bare_state eq_refl eq_refl eq_refl eq_refl eq_refl).
  simpl. discriminate.
Defined.

(** The account ["0xABC@eip155:1@ignored"] is accepted by the genesis sample
    state. *)
Lemma account_segments_after_second_are_ignored_witness :
  addressCaip10 "0xABC@eip155:1@ignored" = "0xABC@eip155:1"
  ∧ ∃ r' h', _applySigned toLowerCaseASCII verifier
               (signedCommit "0xABC@eip155:1@ignored" 100 "did:example:1")
               "c1" 1%positive heapGenesis = Some (Normal r', h').
Proof.
  apply (account_segments_after_second_are_ignored toLowerCaseASCII verifier
           (signedCommit "0xABC@eip155:1@ignored" 100 "did:example:1") "c1" 1%positive
           heapGenesis stateGenesis logGenesis
           (linkProof "0xABC@eip155:1@ignored" 100 "did:example:1")
           "0xABC" "eip155:1" "ignored" ["0xabc@eip155:1"] "0xabc@eip155:1"
           genesis_state genesis_log);
    reflexivity.
Defined.

(** The accounts ["0xDEF@eip155:1"] and ["0xdef@eip155:1"] fare alike on the
    genesis sample state. *)
Lemma controller_check_ignores_case_witness :
  _applySigned toLowerCaseASCII verifier (signedCommit "0xDEF@eip155:1" 100 "did:example:1")
    "c1" 1%positive heapGenesis = Some (Abrupt ControllerMismatchError, heapGenesis)
  ↔ _applySigned toLowerCaseASCII verifier (signedCommit "0xdef@eip155:1" 100 "did:example:1")
      "c1" 1%positive heapGenesis = Some (Abrupt ControllerMismatchError, heapGenesis).
Proof.
  apply (controller_check_ignores_case verifier
           (signedCommit "0xDEF@eip155:1" 100 "did:example:1")
           (signedCommit "0xdef@eip155:1" 100 "did:example:1") "c1"
           1%positive 1%positive heapGenesis stateGenesis stateGenesis
           (linkProof "0xDEF@eip155:1" 100 "did:example:1")
           (linkProof "0xdef@eip155:1" 100 "did:example:1")
           "0xDEF@eip155:1" "0xdef@eip155:1"
           ["0xabc@eip155:1"] ["0xabc@eip155:1"] "0xabc@eip155:1" "0xabc@eip155:1"
           genesis_state genesis_state);
    reflexivity.
Defined.

(** On the anchored state of the scenario (block time 150) a proof at time
    149 is stale and one at time 150 is not. *)
Lemma checkpoint_after_anchor_witness :
  _applySigned toLowerCaseASCII verifier (signedCommit "0xabc@eip155:1" 149 "did:example:2")
    "c3" 3%positive heapAnchored = Some (Abrupt StaleProofError, heapAnchored)
  ∧ ¬ ∃ h'', _applySigned toLowerCaseASCII verifier (signedCommit "0xabc@eip155:1" 150 "did:example:2")
               "c3" 3%positive heapAnchored = Some (Abrupt StaleProofError, h'').
Proof.
  split.
  - apply (proj1 (checkpoint_after_anchor toLowerCaseASCII verifier (contextWith 150) anchorCommit "c2"
             (signedCommit "0xabc@eip155:1" 149 "did:example:2") "c3" 2%positive
             heapSigned stateSigned (proofAt 150)
             (linkProof "0xabc@eip155:1" 149 "did:example:2")
             3%positive heapAnchored signed_state anchor_run_direct eq_refl eq_refl));
      [discriminate|simpl; lia].
  - apply (proj2 (checkpoint_after_anchor toLowerCaseASCII verifier (contextWith 150) anchorCommit "c2"
             (signedCommit "0xabc@eip155:1" 150 "did:example:2") "c3" 2%positive
             heapSigned stateSigned (proofAt 150)
             (linkProof "0xabc@eip155:1" 150 "did:example:2")
             3%positive heapAnchored signed_state anchor_run_direct eq_refl eq_refl)).
    simpl. lia.
Defined.
